(** * The "last encountered" feature of the survey sample notebooks

    The notebooks compute, for a sampled submission and each defect found in
    it, the expression

      (defect_history.index
         - defect_history[defect].cumsum().where(defect_history[defect]).ffill()
      ).iloc[-1]

    over the boolean defect history of the submitting student.  This file
    embeds the pandas operations of that expression as list functions, the
    construction of [defect_history] from the submission log, and the
    dictionary rows in which the four copies of the expression store their
    value, and relates them to the statements of the specification. *)

From stdpp Require Import base list strings gmap sorting.
From Stdlib Require Import ZArith Lia Sorting.Sorted.

Local Open Scope Z_scope.

(** ** Exceptions *)

Inductive error : Type :=
| KeyError    (* a label or a column that the frame does not have *)
| IndexError. (* [.iloc[-1]] on a series without rows *)

Inductive result (A : Type) : Type :=
| Ok (a : A)
| Raise (e : error).
Arguments Ok {A} a.
Arguments Raise {A} e.

Definition bind {A B} (r : result A) (k : A → result B) : result B :=
  match r with
  | Ok a => k a
  | Raise e => Raise e
  end.

Definition of_option {A} (e : error) (o : option A) : result A :=
  match o with
  | Some a => Ok a
  | None => Raise e
  end.

Notation "'let*' x ':=' r 'in' k" := (bind r (fun x => k))
  (at level 10, x name, r at level 100, k at level 200).

Fixpoint traverse {A B} (f : A → result B) (l : list A) : result (list B) :=
  match l with
  | [] => Ok []
  | a :: l' =>
      let* b := f a in
      let* bs := traverse f l' in
      Ok (b :: bs)
  end.

(** ** Series operations

    A series over the [RangeIndex] left by [reset_index(drop=True)] is the
    list of its values; position [i] of the list is the label [i].  A numeric
    cell is [Some z] for the integer-valued number [z] and [None] for NaN
    (after [where] the column is float64, and every number that occurs is an
    integer of magnitude at most the length of the history). *)

Module Series.

Definition num : Type := option Z.

(** [s.cumsum()] on a boolean series: the running count of [True]. *)
Fixpoint cumsum_from (acc : Z) (s : list bool) : list Z :=
  match s with
  | [] => []
  | b :: s' =>
      let acc' := acc + (if b then 1 else 0) in
      acc' :: cumsum_from acc' s'
  end.

Definition cumsum (s : list bool) : list Z := cumsum_from 0 s.

(** [s.where(cond)]: keep the value where [cond] holds, NaN elsewhere. *)
Fixpoint where_ (s : list Z) (cond : list bool) : list num :=
  match s, cond with
  | v :: s', c :: cond' => (if c then Some v else None) :: where_ s' cond'
  | _, _ => []
  end.

(** [s.ffill()]: a NaN takes the last value seen before it; NaNs ahead of
    the first value stay. *)
Fixpoint ffill_from (prev : num) (s : list num) : list num :=
  match s with
  | [] => []
  | x :: s' =>
      let cur := match x with Some v => Some v | None => prev end in
      cur :: ffill_from cur s'
  end.

Definition ffill (s : list num) : list num := ffill_from None s.

(** [index - s] for the [RangeIndex] starting at [start]. *)
Fixpoint rsub_from (start : Z) (s : list num) : list num :=
  match s with
  | [] => []
  | x :: s' => ((λ v, start - v) <$> x) :: rsub_from (start + 1) s'
  end.

Definition index_sub (s : list num) : list num := rsub_from 0 s.

(** [s.iloc[-1]] *)
Definition iloc_last {A} (s : list A) : result A :=
  of_option IndexError (last s).

(** Number of entries equal to [b]; [count true s] is what [s.sum()]
    gives. *)
Definition count (b : bool) (s : list bool) : Z :=
  Z.of_nat (length (filter (λ x, x = b) s)).

End Series.

(** ** The expression on one boolean column

    [flag] stands for [defect_history[defect]]; [defect_history.index] is the
    range of its positions. *)

Definition last_encountered_col (flag : list bool) : result Series.num :=
  Series.iloc_last
    (Series.index_sub
       (Series.ffill (Series.where_ (Series.cumsum flag) flag))).

(** ** Frames

    A frame is kept row by row: each row maps a column label (a defect id) to
    its cell.  [defect_log] is keyed by the index label of the submission.
    A frame without rows keeps no record of its columns; the history frames
    of the notebooks hold at least the row of the target, and the statements
    about columns are made for frames with rows. *)

Module Frame.

(** [df[col]]: the column as a series; [KeyError] when it is missing. *)
Definition column {V} (col : Z) (rows : list (gmap Z V)) : result (list V) :=
  traverse (λ r, of_option KeyError (r !! col)) rows.

(** [df.loc[labels]]: the rows carrying the labels, in the order asked. *)
Definition loc {V} (labels : list Z) (df : gmap Z (gmap Z V))
  : result (list (gmap Z V)) :=
  traverse (λ i, of_option KeyError (df !! i)) labels.

(** [df.astype(bool)]: a count is [True] when it is not zero. *)
Definition astype_bool (rows : list (gmap Z Z)) : list (gmap Z bool) :=
  fmap (M:=list) (fmap (M:=gmap Z) (λ v, negb (v =? 0))) rows.

End Frame.

(** The expression with its two free names, [defect_history] and [defect]. *)
Definition last_encountered (defect_history : list (gmap Z bool)) (defect : Z)
  : result Series.num :=
  let* flag := Frame.column defect defect_history in
  last_encountered_col flag.

(** ** The submission log and the history of a student *)

(** One row of [log]: its index label and the columns the notebooks read. *)
Record submission : Type := Submission {
  idx : Z;
  user : Z;
  item : Z;
  time : Z
}.

Global Instance submission_eq_dec : EqDecision submission.
Proof. solve_decision. Defined.

(** [(log['user'] == row['user']) & (log['time'] <= row['time'])] *)
Definition in_history (row r : submission) : Prop :=
  user r = user row ∧ time r ≤ time row.

Global Instance in_history_dec row r : Decision (in_history row r).
Proof. unfold in_history. apply _. Defined.

(** Timestamp order of two rows. *)
Definition time_le (a b : submission) : Prop := time a ≤ time b.

(** [sort_values(by='time')].  pandas sorts with numpy's default kind, which
    is not stable: the call returns the rows in non-decreasing time, and the
    order it gives to rows of one timestamp is the algorithm's own, which
    may differ from the order they had and from one frame to another.  The
    call is therefore any function with these two properties, and the
    notebooks are read against every such function. *)
Class Sorter : Type := {
  sort_values : list submission → list submission;
  sort_values_perm : ∀ l, sort_values l ≡ₚ l;
  sort_values_sorted : ∀ l, StronglySorted time_le (sort_values l)
}.

(** One such function, to run the notebooks on concrete logs: the sort by
    insertion. *)
Fixpoint insert_by_time (x : submission) (l : list submission)
  : list submission :=
  match l with
  | [] => [x]
  | y :: l' =>
      if bool_decide (time x ≤ time y) then x :: y :: l'
      else y :: insert_by_time x l'
  end.

Definition insertion_sort (l : list submission) : list submission :=
  foldr insert_by_time [] l.

Definition insertion_sorter : Sorter.
Proof.
  assert (Hperm : ∀ x l, insert_by_time x l ≡ₚ x :: l).
  { intros x l. induction l as [|y l IH]; [done|]. cbn.
    case_bool_decide; [done|]. rewrite IH. apply Permutation_swap. }
  assert (Hsorted : ∀ x l, StronglySorted time_le l →
                           StronglySorted time_le (insert_by_time x l)).
  { intros x l. induction 1 as [|y l Hl IH Hy]; cbn.
    - by repeat constructor.
    - case_bool_decide as Hxy.
      + constructor; [by constructor|]. constructor; [done|].
        eapply Forall_impl; [exact Hy|]. unfold time_le. intros z ?. lia.
      + constructor; [done|].
        rewrite Hperm. constructor; [|done].
        unfold time_le. lia. }
  refine {| sort_values := insertion_sort |}.
  - induction l as [|x l IH]; [done|]. cbn. by rewrite Hperm, IH.
  - induction l as [|x l IH]; cbn; [constructor|]. by apply Hsorted.
Defined.

(** [log[...].sort_values(by='time')]: the rows of the student up to the
    time of [row]. *)
Definition history_rows {srt : Sorter} (log : list submission)
    (row : submission) : list submission :=
  sort_values (filter (in_history row) log).

(** [defect_log.loc[ ... .index].reset_index(drop=True).astype(bool)] *)
Definition defect_history {srt : Sorter} (log : list submission)
    (defect_log : gmap Z (gmap Z Z)) (row : submission)
  : result (list (gmap Z bool)) :=
  let* rows := Frame.loc (idx <$> history_rows log row) defect_log in
  Ok (Frame.astype_bool rows).

(** [defect_log.loc[idx][defect_log.loc[idx] > 0].index]: the defects of the
    target submission, for which the inner loop runs.  The list comes in the
    order of the map, not in the column order of the frame; only membership
    is used. *)
Definition defects_present (defect_log : gmap Z (gmap Z Z)) (i : Z)
  : result (list Z) :=
  let* r := of_option KeyError (defect_log !! i) in
  Ok ((map_to_list (filter (λ kv, 0 < kv.2) r)).*1).

(** ** The rows that store the value

    Each copy of the expression puts its value under the key
    ['last encountered'] of a dictionary. *)

Inductive cell : Type :=
| Int (z : Z)
| Num (x : Series.num)
| Text (s : string)
| Ratio (p q : Z).

(** The notebook globals that the statement
    [defect_row['last encountered'] = ...] reads and writes. *)
Record env : Type := Env {
  g_defect_history : list (gmap Z bool);
  g_defect : Z;
  g_defect_row : gmap string cell
}.

(** The assignment statement itself, on the notebook globals: the cell
    "student history" of survey_sample_collection. *)
Definition assign_last_encountered (e : env) : result env :=
  let* v := last_encountered (g_defect_history e) (g_defect e) in
  Ok {| g_defect_history := g_defect_history e;
        g_defect := g_defect e;
        g_defect_row := <["last encountered" := Num v]> (g_defect_row e) |}.

Section Rows.

(** [defects.loc[defect][col]] and [item_profiles.loc[item, defect]]: the
    metadata tables, which hold an entry for every defect of the log. *)
Variable defects : Z → string → cell.
Variable item_profiles : Z → Z → cell.

(** The inner loop body of the unnamed notebook. *)
Definition part_000_defect_row (row : submission) (defect : Z)
    (defect_history : list (gmap Z bool)) : result (gmap string cell) :=
  let r := (∅ : gmap string cell) in
  let r := <["submission id" := Int (idx row)]> r in
  let r := <["defect id" := Int defect]> r in
  let r := <["severity" := defects defect "severity"]> r in
  let r := <["name" := defects defect "defect name"]> r in
  let r := <["description" := defects defect "description"]> r in
  let r := <["code example" := defects defect "code example"]> r in
  let r := <["code fix example" := defects defect "code fix example"]> r in
  let r := <["frequency" := item_profiles (item row) defect]> r in
  let* e := assign_last_encountered (Env defect_history defect r) in
  Ok (g_defect_row e).

(** The inner loop body of sample_collection: no ['defect id']. *)
Definition sample_collection_defect_row (row : submission) (defect : Z)
    (defect_history : list (gmap Z bool)) : result (gmap string cell) :=
  let r := (∅ : gmap string cell) in
  let r := <["submission id" := Int (idx row)]> r in
  let r := <["severity" := defects defect "severity"]> r in
  let r := <["name" := defects defect "defect name"]> r in
  let r := <["description" := defects defect "description"]> r in
  let r := <["code example" := defects defect "code example"]> r in
  let r := <["code fix example" := defects defect "code fix example"]> r in
  let r := <["frequency" := item_profiles (item row) defect]> r in
  let* e := assign_last_encountered (Env defect_history defect r) in
  Ok (g_defect_row e).

(** The dictionary literal appended by [create_export_dataframes] of
    survey_sample_collection; its entries are evaluated in order. *)
Definition create_export_defect_row (row : submission) (defect : Z)
    (defect_history : list (gmap Z bool)) : result (gmap string cell) :=
  let* v := last_encountered defect_history defect in
  Ok (list_to_map
        [ ("submission id", Int (idx row));
          ("defect id", Int defect);
          ("severity", defects defect "severity");
          ("name", defects defect "defect name");
          ("description", defects defect "description");
          ("code example", defects defect "code example");
          ("code fix example", defects defect "code fix example");
          ("frequency", item_profiles (item row) defect);
          ("last encountered", Num v) ]).

End Rows.

(** What a row holds under ['last encountered']. *)
Definition stored (r : result (gmap string cell)) : result (option cell) :=
  let* m := r in Ok (m !! "last encountered").

(** ** Vocabulary of the statements *)

(** The hypotheses of the gap property: [d]'s column is flagged at [k], at
    no position between [k] and [t], and at the target [t], the last
    position of the truncated history. *)
Definition gap (flag : list bool) (k t : nat) : Prop :=
  (k < t)%nat ∧ length flag = S t
  ∧ flag !! k = Some true ∧ flag !! t = Some true
  ∧ ∀ j, (k < j < t)%nat → flag !! j = Some false.

(** The target holds the first occurrence: no earlier position is flagged. *)
Definition first_occurrence (flag : list bool) : Prop :=
  ∃ m, flag = replicate m false ++ [true].

(** The flag that the history frame of a target holds for a submission
    and a defect: the cell of [defect_log], cast to bool; nothing when the
    row or the column is missing. *)
Definition cell_flag (defect_log : gmap Z (gmap Z Z)) (d : Z)
    (r : submission) : option bool :=
  cells ← defect_log !! idx r; v ← cells !! d; Some (negb (v =? 0)).

Definition flag_of (defect_log : gmap Z (gmap Z Z)) (d : Z)
    (r : submission) : bool :=
  default false (cell_flag defect_log d r).

(** ** Integer cells

    The cells of the frames are int64; [wrap64] is the value an operation
    leaves in such a cell. *)
Definition wrap64 (z : Z) : Z := (z + 2 ^ 63) `mod` 2 ^ 64 - 2 ^ 63.

(** [row.values]: the cells of one row of a frame.  They come in the order
    of the map; the uses below do not depend on the order. *)
Definition row_values (r : gmap Z Z) : list Z := (map_to_list r).*2.

(** ** The severity filter of survey_sample_collection *)

(** [has_close_pair(row)], on [row.values]:
    [np.any(np.abs(row_values[:, None] - row_values) <= 1)], the matrix of all
    differences [row_values[i] - row_values[j]]. *)
Definition has_close_pair (values : list Z) : bool :=
  existsb
    (λ a, existsb (λ b, wrap64 (Z.abs (wrap64 (a - b))) <=? 1) values)
    values.

(** [filtered[filtered.apply(has_close_pair, axis=1)]] *)
Definition close_pair_rows (filtered : list (gmap Z Z)) : list (gmap Z Z) :=
  filter (λ r, has_close_pair (row_values r) = true) filtered.

(** [df.sum(axis=1)] for one row. *)
Definition row_sum (r : gmap Z Z) : Z := wrap64 (foldr Z.add 0 (row_values r)).

(** ** Loading in sample_collection *)

(** [s.value_counts()]: how often each value occurs. *)
Definition value_counts (s : list Z) : gmap Z Z :=
  foldr (λ x m, <[x := default 0 (m !! x) + 1]> m) ∅ s.

(** [items.loc[items.index.isin((log["item"].value_counts() > 100).index)]]:
    the comparison gives a boolean series over the same index as the counts,
    and [.index] is taken of that series. *)
Definition keep_items {V} (items : gmap Z V) (log : list submission)
  : gmap Z V :=
  let frequent : gmap Z bool :=
    (λ c, bool_decide (100 < c)) <$> value_counts (item <$> log) in
  filter (λ kv, kv.1 ∈ dom frequent) items.

(** [log[log["item"].isin(items.index)]] *)
Definition keep_log {V} (items : gmap Z V) (log : list submission)
  : list submission :=
  filter (λ r, item r ∈ dom items) log.

(** A row of the defect table after its codes were split: the index label
    and the tuple [tuple(map(str.strip, x.split(",")))], which has a first
    code since [split] returns at least one piece. *)
Record defect_codes : Type := DefectCodes {
  d_id : Z;
  d_code : string;
  d_more : list string
}.

(** [defects['EduLint code'].explode().items()]: one pair for each code of
    each tuple, in table order. *)
Definition explode (defects : list defect_codes) : list (Z * string) :=
  d ← defects; (λ c, (d_id d, c)) <$> (d_code d :: d_more d).

(** [{val: idx for idx, val in ...}]: a later pair overwrites an earlier
    one with the same code. *)
Definition code_to_defect_id (defects : list defect_codes) : gmap string Z :=
  foldl (λ m ic, <[ic.2 := ic.1]> m) ∅ (explode defects).

(** A row of the message log: ["log entry"], ["defect"] (an EduLint code)
    and ["message"]. *)
Record message : Type := Message {
  log_entry : Z;
  defect_code : string;
  message_text : string
}.

(** The three filters on [messages] and the replacement of each code by its
    defect id ([.replace(code_to_defect_id).astype(int)], on rows whose code
    is a key): the pairs (log entry, defect id) that are tabulated. *)
Definition defect_messages (log : list submission) (codes : gmap string Z)
    (messages : list message) : list (Z * Z) :=
  let m1 :=
    filter (λ m, message_text m
                 ∉ ["no newline at end of file"; "trailing whitespace"])
      messages in
  let m2 := filter (λ m, log_entry m ∈ idx <$> log) m1 in
  let m3 := filter (λ m, is_Some (codes !! defect_code m)) m2 in
  omap (λ m, (λ d, (log_entry m, d)) <$> codes !! defect_code m) m3.

(** The map that holds [f k] under each key of [ks]. *)
Definition tabulate {A} (f : Z → A) (ks : list Z) : gmap Z A :=
  list_to_map ((λ k, (k, f k)) <$> ks).

(** A frame with its column labels, which it has even without rows. *)
Record table : Type := Table {
  t_columns : gset Z;
  t_rows : gmap Z (gmap Z Z)
}.

(** [pd.crosstab(rows, cols)]: how often each pair occurs; a row for every
    first component and a column for every second component that occurs. *)
Definition crosstab (pairs : list (Z * Z)) : table :=
  let cols : gset Z := list_to_set pairs.*2 in
  Table cols
    (tabulate
       (λ i, tabulate
               (λ d, Z.of_nat (length (filter (λ p, p = (i, d)) pairs)))
               (elements cols))
       (remove_dups pairs.*1)).

(** [t.reindex(labels, fill_value=fill)]: the rows of the labels, a row of
    [fill] for a label that [t] does not have. *)
Definition reindex (labels : list Z) (fill : Z) (t : table) : table :=
  Table (t_columns t)
    (tabulate
       (λ i, default (tabulate (λ _, fill) (elements (t_columns t)))
               (t_rows t !! i))
       labels).

(** [(defect_log > 0).astype(int)] *)
Definition presence (rows : gmap Z (gmap Z Z)) : gmap Z (gmap Z Z) :=
  fmap (M:=gmap Z) (fmap (M:=gmap Z) (λ v, if bool_decide (0 < v) then 1 else 0))
    rows.

(** The cell "vectorize defects" of sample_collection. *)
Definition vectorize_defects (log : list submission)
    (defects : list defect_codes) (messages : list message) : table :=
  let t :=
    reindex (idx <$> log) 0
      (crosstab (defect_messages log (code_to_defect_id defects) messages)) in
  Table (t_columns t) (presence (t_rows t)).

(** ** Sessions of one student (the dashboard cells) *)

(** [pd.Timedelta(hours=1)] in the nanoseconds of [datetime64]. *)
Definition hour : Z := 3600 * 10 ^ 9.

(** What the dashboard cell raises: [ValueError] by its own check of an
    empty history, [OverflowError] from [diff()] when two consecutive
    timestamps lie further apart than an int64 of nanoseconds holds. *)
Inductive session_error : Type :=
| ValueError
| OverflowError.

(** The differences that an int64 of nanoseconds holds. *)
Definition in_int64 (z : Z) : Prop := - 2 ^ 63 ≤ z < 2 ^ 63.

Global Instance in_int64_dec z : Decision (in_int64 z).
Proof. unfold in_int64. apply _. Defined.

(** [user_history['time'].diff() > pd.Timedelta(hours=1)] after the first
    row: the differences to the row before. *)
Fixpoint long_gaps_from (prev : Z) (times : list Z)
  : session_error + list bool :=
  match times with
  | [] => inr []
  | t :: times' =>
      if bool_decide (in_int64 (t - prev)) then
        match long_gaps_from t times' with
        | inr gaps => inr (bool_decide (hour < t - prev) :: gaps)
        | inl e => inl e
        end
      else inl OverflowError
  end.

(** The cell from its check to [session_ids]:
    [if user_history.shape[0] == 0: raise ValueError(...)] and
    [(user_history['time'].diff() > pd.Timedelta(hours=1)).cumsum().tolist()].
    The first difference is NaT, which compares as [False]. *)
Definition session_ids (times : list Z) : session_error + list Z :=
  match times with
  | [] => inl ValueError
  | t :: times' =>
      match long_gaps_from t times' with
      | inr gaps => inr (Series.cumsum (false :: gaps))
      | inl e => inl e
      end
  end.

(** The grid of the session figure for [n = session_ids[-1] + 1] sessions:
    [cols = math.floor(math.sqrt(n))], [rows = math.ceil(n / cols)], and the
    cell [(session_id % rows + 1, session_id // rows + 1)] of a session.  The
    square root and the quotient are floats in the notebook; they are exact
    enough for the integer results below 2^52 sessions. *)
Definition grid_cols (n : Z) : Z := Z.sqrt n.
Definition grid_rows (n : Z) : Z := - ((- n) `div` grid_cols n).
Definition grid_cell (n session_id : Z) : Z * Z :=
  (session_id `mod` grid_rows n + 1, session_id `div` grid_rows n + 1).

(** ** One answer per student and item (loading in sample_collection) *)

Definition session_key (r : submission) : Z * Z := (user r, item r).

(** The order in which [groupby] lays out its groups. *)
Definition key_le (a b : Z * Z) : Prop := a.1 < b.1 ∨ (a.1 = b.1 ∧ a.2 ≤ b.2).

Global Instance key_le_dec a b : Decision (key_le a b).
Proof. unfold key_le. apply _. Defined.

(** [log.reset_index().groupby(["user", "item"], as_index=False).last()
       .set_index("index")], on a log without missing cells (the cell has
    called [dropna] before): the last row of each group, the groups in the
    order of their keys. *)
Definition last_per_session (log : list submission) : list submission :=
  omap (λ k, last (filter (λ r, session_key r = k) log))
    (merge_sort key_le (remove_dups (session_key <$> log))).

(** ... followed by [log.sort_values(by='time', inplace=True)]. *)
Definition load_log {srt : Sorter} (log : list submission)
  : list submission :=
  sort_values (last_per_session log).

(** ** The series behind the value

    The series of which the notebooks read the last cell,
    [defect_history.index
       - defect_history[defect].cumsum().where(defect_history[defect]).ffill()]. *)
Definition last_encountered_series (flag : list bool) : list Series.num :=
  Series.index_sub (Series.ffill (Series.where_ (Series.cumsum flag) flag)).

(** * Properties *)

(** ** The closed form of the expression *)

Section ClosedForm.

Import Series.

Lemma count_cons (b x : bool) (s : list bool) :
  count b (x :: s) = (if decide (x = b) then 1 else 0) + count b s.
Proof.
  unfold count. rewrite filter_cons.
  destruct (decide (x = b)); simpl; lia.
Qed.

Lemma count_true_false (s : list bool) :
  count true s + count false s = Z.of_nat (length s).
Proof.
  induction s as [|x s IH]; [done|].
  rewrite !count_cons. cbn [length].
  destruct x; repeat case_decide; try done; lia.
Qed.

Lemma count_true_absent (s : list bool) : true ∉ s → count true s = 0.
Proof.
  induction s as [|x s IH]; [done|].
  intros H. rewrite count_cons.
  destruct x; [exfalso; apply H; left|].
  case_decide; [done|]. apply IH. intros ?. apply H. by right.
Qed.

Lemma count_true_all (s : list bool) :
  Forall (eq true) s → count true s = Z.of_nat (length s).
Proof.
  induction 1 as [|x s <- _ IH]; [done|].
  rewrite count_cons, IH. cbn [length]. case_decide; [lia|done].
Qed.

(** The last cell after [cumsum], [where] and [ffill]: the full count once
    a [True] was met, the carried value before that. *)
Lemma last_ffill_where_cumsum (s : list bool) :
  ∀ (acc : Z) (prev : num), s ≠ [] →
    last (ffill_from prev (where_ (cumsum_from acc s) s))
    = Some (if decide (true ∈ s) then Some (acc + count true s) else prev).
Proof.
  induction s as [|b s IH]; [done|].
  intros acc prev _. destruct s as [|b' s].
  - destruct b; cbn.
    + rewrite decide_True by (by left). done.
    + rewrite decide_False; [done|]. by intros ?%list_elem_of_singleton.
  - set (acc' := acc + (if b then 1 else 0)).
    set (cur := if b then Some acc' else prev).
    assert (Hstep :
      last (ffill_from prev
              (where_ (cumsum_from acc (b :: b' :: s)) (b :: b' :: s)))
      = last (ffill_from cur (where_ (cumsum_from acc' (b' :: s)) (b' :: s))))
      by (subst cur acc'; by destruct b).
    rewrite Hstep, IH by done. f_equal.
    rewrite (count_cons true b). subst cur acc'.
    destruct (decide (true ∈ b' :: s)) as [Hin|Hnin].
    + rewrite decide_True by (by right).
      f_equal. destruct b; case_decide; try done; lia.
    + destruct b.
      * rewrite decide_True by (by left).
        rewrite (count_true_absent _ Hnin). case_decide; [|done]. f_equal; lia.
      * rewrite decide_False; [done|].
        intros [?|?]%elem_of_cons; done.
Qed.

Lemma length_where_cumsum (acc : Z) (s : list bool) :
  length (where_ (cumsum_from acc s) s) = length s.
Proof. revert acc. induction s as [|b s IH]; intros acc; cbn; [done|]. by rewrite IH. Qed.

Lemma length_ffill_from (prev : num) (s : list num) :
  length (ffill_from prev s) = length s.
Proof. revert prev. induction s as [|x s IH]; intros prev; cbn; [done|]. by rewrite IH. Qed.

(** The last cell of [index - s] is the last position minus the last cell
    of [s]. *)
Lemma last_rsub_from (s : list num) :
  ∀ start : Z,
    last (rsub_from start s)
    = (λ x : num, (λ v, start + Z.of_nat (length s) - 1 - v) <$> x) <$> last s.
Proof.
  induction s as [|x s IH]; [done|].
  intros start. destruct s as [|y s].
  - cbn. destruct x; cbn; repeat f_equal; lia.
  - change (last (rsub_from start (x :: y :: s)))
      with (last (rsub_from (start + 1) (y :: s))).
    rewrite IH. change (last (x :: y :: s)) with (last (y :: s)).
    cbn [length]. destruct (last (y :: s)) as [[v|]|]; cbn; try done.
    do 2 f_equal. lia.
Qed.

(** What the expression evaluates to on every column. *)
Lemma last_encountered_col_closed (flag : list bool) :
  last_encountered_col flag
  = match flag with
    | [] => Raise IndexError
    | _ :: _ =>
        Ok (if decide (true ∈ flag)
            then Some (Z.of_nat (length flag) - 1 - count true flag)
            else None)
    end.
Proof.
  destruct flag as [|b s]; [done|].
  unfold last_encountered_col, iloc_last, index_sub, ffill, cumsum.
  rewrite last_rsub_from, last_ffill_where_cumsum by done.
  rewrite length_ffill_from, length_where_cumsum.
  cbn [fmap option_fmap option_map of_option].
  case_decide; cbn; [|done]. apply (f_equal Ok), (f_equal Some). lia.
Qed.

End ClosedForm.

(** C3. On a history whose last position is flagged, the expression is the
    last index minus the number of flagged positions, that is the number of
    unflagged submissions minus one; it is -1 when every position is flagged,
    as for the one-row history [[true]]. *)
Theorem last_encountered_is_index_minus_count (flag : list bool) :
  last flag = Some true →
  last_encountered_col flag
  = Ok (Some (Z.of_nat (length flag) - 1 - Series.count true flag))
  ∧ Z.of_nat (length flag) - 1 - Series.count true flag
    = Series.count false flag - 1
  ∧ (Forall (eq true) flag → last_encountered_col flag = Ok (Some (-1)))
  ∧ last_encountered_col [true] = Ok (Some (-1)).
Proof.
  intros Hlast.
  assert (Hin : true ∈ flag) by (by apply last_Some_elem_of).
  assert (Hcf : last_encountered_col flag
    = Ok (Some (Z.of_nat (length flag) - 1 - Series.count true flag))).
  { rewrite last_encountered_col_closed.
    destruct flag; [done|]. by rewrite decide_True. }
  split_and!; [done| |intros Hall|done].
  - pose proof (count_true_false flag). lia.
  - rewrite Hcf, count_true_all by done. do 2 f_equal. lia.
Qed.

Lemma last_encountered_is_index_minus_count_witness :
  last_encountered_col [false; true; true]
  = Ok (Some (Z.of_nat (length [false; true; true]) - 1
              - Series.count true [false; true; true])).
Proof.
  apply (last_encountered_is_index_minus_count [false; true; true]).
  reflexivity.
Defined.

(** ** Gaps, first occurrences and failures *)

Section Gaps.

Import Series.

Lemma count_app (b : bool) (s1 s2 : list bool) :
  count b (s1 ++ s2) = count b s1 + count b s2.
Proof. unfold count. rewrite filter_app, length_app. lia. Qed.

Lemma count_true_replicate_false (m : nat) : count true (replicate m false) = 0.
Proof.
  apply count_true_absent. by intros [H _]%elem_of_replicate.
Qed.

(** A history flagged at position [length pre], then unflagged for [m]
    submissions, then flagged at the target [t = length pre + m + 1]: the
    expression subtracts from [t] the number of flagged submissions, not
    the position [length pre]. *)
Lemma last_encountered_col_gap (pre : list bool) (m : nat) :
  last_encountered_col (pre ++ true :: replicate m false ++ [true])
  = Ok (Some (Z.of_nat (length pre + m + 1) - (count true pre + 2))).
Proof.
  rewrite last_encountered_col_closed.
  destruct (pre ++ true :: replicate m false ++ [true]) as [|b s] eqn:E.
  { by destruct pre. }
  rewrite <- E. rewrite decide_True.
  2:{ apply elem_of_app. right. by left. }
  apply (f_equal Ok), (f_equal Some).
  rewrite count_app, (count_cons true true), count_app, count_true_replicate_false.
  rewrite decide_True by done.
  rewrite length_app. cbn [length]. rewrite length_app, length_replicate.
  cbn [length]. change (count true [true]) with 1. lia.
Qed.

(** The value on a first occurrence that follows [m] unflagged
    submissions. *)
Lemma last_encountered_col_first (m : nat) :
  last_encountered_col (replicate m false ++ [true])
  = Ok (Some (Z.of_nat m - 1)).
Proof.
  rewrite last_encountered_col_closed.
  destruct (replicate m false ++ [true]) as [|b s] eqn:E.
  { by destruct m. }
  rewrite <- E. rewrite decide_True.
  2:{ apply elem_of_app. right. by left. }
  apply (f_equal Ok), (f_equal Some).
  rewrite count_app, count_true_replicate_false, length_app, length_replicate.
  cbn [length]. change (count true [true]) with 1. lia.
Qed.

End Gaps.

(** Flags of other defects do not enter the expression. *)
Lemma column_insert_ne {V} (d d' : Z) (v : V) (i : nat) (h : list (gmap Z V)) :
  d ≠ d' →
  Frame.column d (alter (insert d' v) i h) = Frame.column d h.
Proof.
  intros Hne. unfold Frame.column. revert i.
  induction h as [|r h IH]; intros [|i]; cbn; try done.
  - by rewrite lookup_insert_ne.
  - by rewrite IH.
Qed.

Lemma last_encountered_other_columns (d d' : Z) (v : bool) (i : nat)
    (h : list (gmap Z bool)) :
  d ≠ d' →
  last_encountered (alter (insert d' v) i h) d = last_encountered h d.
Proof. intros Hne. unfold last_encountered. by rewrite column_insert_ne. Qed.

(** C1. The expression at a history flagged at positions 0 and 3 only, with
    another defect's column beside it: the gap hypotheses hold with [k = 0]
    and [t = 3], and the value is 1, not [t - k = 3]. *)
Theorem last_encountered_gap_0_3 :
  let h : list (gmap Z bool) :=
    [ {[ 7 := true; 9 := false ]}; {[ 7 := false; 9 := true ]};
      {[ 7 := false; 9 := true ]}; {[ 7 := true; 9 := false ]} ] in
  Frame.column 7 h = Ok [true; false; false; true]
  ∧ gap [true; false; false; true] 0 3
  ∧ last_encountered h 7 = Ok (Some 1)
  ∧ last_encountered h 7 ≠ Ok (Some (3 - 0)).
Proof.
  cbv zeta. split_and!; [by vm_compute| |by vm_compute|by vm_compute].
  unfold gap. split_and!; try done; [lia|].
  intros [|[|[|j]]] ?; try done; lia.
Qed.

(** C4. Flagged at positions 3 and 7 only, target 7, length 8: the
    expression gives 5. *)
Theorem last_encountered_3_7 :
  gap [false; false; false; true; false; false; false; true] 3 7
  ∧ last_encountered_col
      [false; false; false; true; false; false; false; true] = Ok (Some 5).
Proof.
  split; [|by vm_compute].
  unfold gap. split_and!; try done; [lia|].
  intros j ?. do 8 (destruct j as [|j]; [first [done|lia]|]). lia.
Qed.

(** C5. The flags [1,0,0,1,0,1]: truncated at the targets 5, 3 and 0 the
    expression gives 2, 1 and -1. *)
Theorem last_encountered_scenario :
  let A := [true; false; false; true; false; true] in
  last_encountered_col (take 6 A) = Ok (Some 2)
  ∧ last_encountered_col (take 4 A) = Ok (Some 1)
  ∧ last_encountered_col (take 1 A) = Ok (Some (-1)).
Proof. by vm_compute. Qed.

Lemma history_rows_alone {srt : Sorter} (row : submission) :
  history_rows [row] row = [row].
Proof.
  unfold history_rows. rewrite filter_cons, decide_True, filter_nil.
  - apply Permutation_singleton_r, sort_values_perm.
  - unfold in_history. split; [done|lia].
Qed.

Lemma defects_present_spec (defect_log : gmap Z (gmap Z Z)) (i d : Z)
    (ds : list Z) :
  defects_present defect_log i = Ok ds → d ∈ ds →
  ∃ r c, defect_log !! i = Some r ∧ r !! d = Some c ∧ 0 < c.
Proof.
  unfold defects_present. destruct (defect_log !! i) as [r|]; [|done].
  cbn. intros [= <-] Hd. apply list_elem_of_fmap in Hd as [[d' c] [-> Hd]].
  apply elem_of_map_to_list, map_lookup_filter_Some in Hd as [Hd Hc].
  by exists r, c.
Qed.

(** C6. A student whose only submission is the target: for every defect
    present in the target the expression gives -1, not the target's
    position 0. *)
Theorem last_encountered_target_alone {srt : Sorter} (row : submission)
    (counts : gmap Z Z) (d : Z) (ds : list Z) :
  defects_present {[ idx row := counts ]} (idx row) = Ok ds →
  d ∈ ds →
  (let* h := defect_history [row] {[ idx row := counts ]} row in
   last_encountered h d) = Ok (Some (-1)).
Proof.
  intros Hds Hd.
  destruct (defects_present_spec _ _ _ _ Hds Hd) as (r & c & Hr & Hc & Hpos).
  rewrite lookup_singleton_eq in Hr. injection Hr as <-.
  unfold defect_history. rewrite history_rows_alone.
  unfold Frame.loc. cbn [fmap list_fmap traverse].
  rewrite lookup_singleton_eq. cbn [of_option bind].
  unfold last_encountered, Frame.astype_bool, Frame.column.
  cbn [fmap list_fmap traverse]. rewrite lookup_fmap, Hc.
  cbn [fmap option_fmap option_map of_option bind].
  destruct (Z.eqb_spec c 0) as [->|_]; [lia|]. done.
Qed.

Lemma last_encountered_target_alone_witness :
  (let* h := defect_history (srt:=insertion_sorter) [Submission 10 1 3 500]
               {[ 10 := {[ 4 := 2; 5 := 0; 6 := 1 ]} ]} (Submission 10 1 3 500) in
   last_encountered h 6) = Ok (Some (-1)).
Proof.
  apply (last_encountered_target_alone (srt:=insertion_sorter)
           (Submission 10 1 3 500)
           {[ 4 := 2; 5 := 0; 6 := 1 ]} 6 [6; 4]).
  - vm_compute. reflexivity.
  - left.
Defined.

(** C2. The target holds the first occurrence, after [m] submissions
    without the defect, so that its position is [m]: the expression gives
    [m - 1], one less than the position. *)
Theorem last_encountered_first_occurrence (m : nat) :
  first_occurrence (replicate m false ++ [true])
  ∧ length (replicate m false ++ [true]) = S m
  ∧ last_encountered_col (replicate m false ++ [true])
    = Ok (Some (Z.of_nat m - 1))
  ∧ last_encountered_col (replicate m false ++ [true])
    ≠ Ok (Some (Z.of_nat m)).
Proof.
  split_and!.
  - by exists m.
  - rewrite length_app, length_replicate. cbn. lia.
  - apply last_encountered_col_first.
  - rewrite last_encountered_col_first. intros [= E]. lia.
Qed.

(** C7, as the specification has it, fails: with the defect absent from the
    target the expression still returns. *)
Lemma unflagged_target_returns :
  ¬ (∀ flag, (∃ e, last_encountered_col flag = Raise e)
             ↔ (flag = [] ∨ last flag ≠ Some true)).
Proof.
  intros H. destruct (proj2 (H [true; false])) as [e He].
  - by right.
  - discriminate He.
Qed.

(** C7, amended. The expression takes no target position and knows no
    InvalidArgument: it raises exactly on the history without rows, where
    [.iloc[-1]] raises IndexError; on any other history it returns, a number
    when the defect is flagged somewhere, hence when it is flagged at the
    target, and NaN when it is flagged nowhere. *)
Theorem last_encountered_col_failure (flag : list bool) :
  ((∃ e, last_encountered_col flag = Raise e) ↔ flag = [])
  ∧ (flag = [] → last_encountered_col flag = Raise IndexError)
  ∧ (last flag = Some true → ∃ v : Z, last_encountered_col flag = Ok (Some v))
  ∧ (flag ≠ [] → true ∈ flag → ∃ v : Z, last_encountered_col flag = Ok (Some v))
  ∧ (flag ≠ [] → true ∉ flag → last_encountered_col flag = Ok None).
Proof.
  rewrite last_encountered_col_closed. destruct flag as [|b s].
  - split_and!; try done. split; [done|]. intros _. by exists IndexError.
  - split_and!; try done.
    + split; [|done]. by intros [e He].
    + intros Hl%last_Some_elem_of. rewrite decide_True by done. eauto.
    + intros _ Hin. rewrite decide_True by done. eauto.
    + intros _ Hnin. by rewrite decide_False.
Qed.

Lemma last_encountered_col_failure_witness :
  ∃ v : Z, last_encountered_col [false; true] = Ok (Some v).
Proof.
  apply (proj1 (proj2 (proj2 (last_encountered_col_failure [false; true])))).
  reflexivity.
Defined.

(** ** The history that the expression scans *)

Section History.

Context {srt : Sorter}.

(** In a sorted list that reaches the time [T] and never passes it, the
    last row is the last of those at [T]. *)
Lemma last_sorted_max (T : Z) (l : list submission) :
  StronglySorted time_le l →
  Forall (λ r, time r ≤ T) l →
  (∃ r, r ∈ l ∧ time r = T) →
  last l = last (filter (λ r, time r = T) l).
Proof.
  induction 1 as [|y l Hl IH Hy]; intros Hle [r [Hr HT]].
  { by apply elem_of_nil in Hr. }
  apply Forall_cons in Hle as [HyT Hle].
  rewrite filter_cons. destruct l as [|z l].
  - apply list_elem_of_singleton in Hr as ->. by rewrite decide_True.
  - assert (Hex : ∃ r', r' ∈ z :: l ∧ time r' = T).
    { apply elem_of_cons in Hr as [->|Hr]; [|by eauto].
      exists z. split; [by left|].
      apply Forall_cons in Hy as [Hyz _]. apply Forall_cons in Hle as [HzT _].
      unfold time_le in Hyz. lia. }
    change (last (y :: z :: l)) with (last (z :: l)).
    rewrite IH by done.
    destruct Hex as [r' [Hr' HT']].
    assert (Hne : filter (λ r, time r = T) (z :: l) ≠ []).
    { intros E. assert (r' ∈ filter (λ r, time r = T) (z :: l)) as Hin
        by (by apply list_elem_of_filter).
      rewrite E in Hin. by apply elem_of_nil in Hin. }
    destruct (filter (λ r, time r = T) (z :: l)) as [|w ws]; [done|].
    by case_decide.
Qed.

Lemma history_rows_elem (log : list submission) (row r : submission) :
  r ∈ history_rows log row
  ↔ r ∈ log ∧ user r = user row ∧ time r ≤ time row.
Proof.
  unfold history_rows. rewrite sort_values_perm, list_elem_of_filter.
  unfold in_history. tauto.
Qed.

Lemma history_rows_target (log : list submission) (row : submission) :
  row ∈ log → row ∈ history_rows log row.
Proof. intros H. apply history_rows_elem. split_and!; [done|done|lia]. Qed.

(** The row at the end of a history has the time of the target. *)
Lemma history_rows_last_time (log : list submission) (row : submission) :
  row ∈ log →
  ∃ r, last (history_rows log row) = Some r
       ∧ r ∈ log ∧ user r = user row ∧ time r = time row.
Proof.
  intros Hrow.
  pose proof (history_rows_target log row Hrow) as Hin.
  rewrite (last_sorted_max (time row)).
  - destruct (last (filter _ (history_rows log row))) as [r|] eqn:E.
    + exists r. split; [done|].
      apply last_Some_elem_of, list_elem_of_filter in E as [HT Hr].
      apply history_rows_elem in Hr as (? & ? & ?). done.
    + apply last_None in E.
      assert (row ∈ filter (λ r, time r = time row) (history_rows log row))
        as Hf by (by apply list_elem_of_filter).
      rewrite E in Hf. by apply elem_of_nil in Hf.
  - apply sort_values_sorted.
  - apply Forall_forall. intros r Hr.
    by apply history_rows_elem in Hr as (_ & _ & ?).
  - by exists row.
Qed.

(** However equal timestamps are ordered, a target whose timestamp no
    other row of the student shares ends the time-sorted history. *)
Lemma target_last_any_order (row : submission) (log h : list submission) :
  row ∈ log →
  h ≡ₚ filter (in_history row) log →
  StronglySorted time_le h →
  (∀ r, r ∈ log → user r = user row → time r = time row → r = row) →
  last h = Some row.
Proof.
  intros Hrow Hperm Hsorted Huniq.
  assert (Hle : Forall (λ r, time r ≤ time row) h).
  { apply Forall_forall. intros r Hr. rewrite Hperm in Hr.
    apply list_elem_of_filter in Hr as [[_ ?] _]. done. }
  assert (Hin : row ∈ h).
  { rewrite Hperm. apply list_elem_of_filter. split; [|done].
    unfold in_history. split; [done|lia]. }
  rewrite (last_sorted_max (time row)) by eauto.
  destruct (last (filter _ h)) as [r|] eqn:E.
  - apply last_Some_elem_of, list_elem_of_filter in E as [HT Hr].
    rewrite Hperm in Hr. apply list_elem_of_filter in Hr as [[Hu _] Hr].
    f_equal. by apply Huniq.
  - apply last_None in E.
    assert (row ∈ filter (λ r, time r = time row) h) as Hf
      by (by apply list_elem_of_filter).
    rewrite E in Hf. by apply elem_of_nil in Hf.
Qed.

End History.

(** C8, as the specification has it, fails, whatever order the sort gives
    to equal timestamps: two submissions of a student with one timestamp
    have one and the same history, which cannot end with both. *)
Lemma tied_target_not_last :
  ¬ ∃ srt : Sorter, ∀ log row, row ∈ log →
      last (idx <$> history_rows log row) = Some (idx row).
Proof.
  intros [srt H].
  pose proof (H [Submission 10 1 3 500; Submission 11 1 3 500]
                (Submission 10 1 3 500) ltac:(by left)) as H10.
  pose proof (H [Submission 10 1 3 500; Submission 11 1 3 500]
                (Submission 11 1 3 500) ltac:(by right; left)) as H11.
  unfold history_rows in H10, H11.
  change (filter (in_history (Submission 10 1 3 500))
            [Submission 10 1 3 500; Submission 11 1 3 500])
    with [Submission 10 1 3 500; Submission 11 1 3 500] in H10.
  change (filter (in_history (Submission 11 1 3 500))
            [Submission 10 1 3 500; Submission 11 1 3 500])
    with [Submission 10 1 3 500; Submission 11 1 3 500] in H11.
  rewrite H10 in H11. discriminate H11.
Qed.

(** C8, amended. The history of a target of the log holds exactly the rows
    of its student with a timestamp up to the target's, the target among
    them, in timestamp order; the sort fixes no order among equal
    timestamps.  Its last row is a row of the student with the target's
    timestamp, and it is the target when no other row of the student has
    that timestamp. *)
Theorem history_rows_truncated_sorted {srt : Sorter} (log : list submission)
    (row : submission) :
  row ∈ log →
  let h := history_rows log row in
  h ≡ₚ filter (in_history row) log
  ∧ (∀ r, r ∈ h ↔ r ∈ log ∧ user r = user row ∧ time r ≤ time row)
  ∧ row ∈ h
  ∧ StronglySorted time_le h
  ∧ (∃ r, last h = Some r ∧ r ∈ log ∧ user r = user row ∧ time r = time row)
  ∧ ((∀ r, r ∈ log → user r = user row → time r = time row → r = row) →
     last (idx <$> h) = Some (idx row)).
Proof.
  intros Hrow h. split_and!.
  - apply sort_values_perm.
  - intros r. apply history_rows_elem.
  - by apply history_rows_target.
  - apply sort_values_sorted.
  - by apply history_rows_last_time.
  - intros Huniq. rewrite fmap_last.
    rewrite (target_last_any_order row log h); try done.
    + apply sort_values_perm.
    + apply sort_values_sorted.
Qed.

Lemma history_rows_truncated_sorted_witness :
  last (idx <$> history_rows (srt:=insertion_sorter)
          [Submission 10 1 3 500; Submission 20 2 3 510;
           Submission 11 1 4 550; Submission 12 1 4 600]
          (Submission 11 1 4 550))
  = Some 11.
Proof.
  apply (history_rows_truncated_sorted (srt:=insertion_sorter)
           [Submission 10 1 3 500; Submission 20 2 3 510;
            Submission 11 1 4 550; Submission 12 1 4 600]
           (Submission 11 1 4 550)).
  - right. right. left.
  - intros r Hr Hu Ht.
    repeat (apply elem_of_cons in Hr as [->|Hr]; [by vm_compute in Ht|]).
    by apply elem_of_nil in Hr.
Defined.

(** ** The statement that stores the value *)

Lemma assign_last_encountered_eq (e : env) :
  assign_last_encountered e
  = let* v := last_encountered (g_defect_history e) (g_defect e) in
    Ok (Env (g_defect_history e) (g_defect e)
          (<["last encountered" := Num v]> (g_defect_row e))).
Proof. done. Qed.

(** C10. The four copies store the same value under ['last encountered'],
    the value of the one expression, and fail together with it. *)
Theorem four_copies_agree (defects : Z → string → cell)
    (item_profiles : Z → Z → cell) (row : submission) (defect : Z)
    (defect_history : list (gmap Z bool)) (r : gmap string cell) :
  let value :=
    let* v := last_encountered defect_history defect in Ok (Some (Num v)) in
  stored (part_000_defect_row defects item_profiles row defect defect_history)
  = value
  ∧ stored (sample_collection_defect_row defects item_profiles row defect
              defect_history)
    = value
  ∧ stored (create_export_defect_row defects item_profiles row defect
              defect_history)
    = value
  ∧ stored (let* e := assign_last_encountered (Env defect_history defect r) in
            Ok (g_defect_row e))
    = value.
Proof.
  unfold part_000_defect_row, sample_collection_defect_row,
    create_export_defect_row, stored.
  rewrite !assign_last_encountered_eq.
  cbn [g_defect_history g_defect g_defect_row].
  destruct (last_encountered defect_history defect) as [v|x];
    cbn [bind g_defect_row]; [|done].
  split_and!; apply (f_equal Ok); try by rewrite lookup_insert_eq.
  unfold list_to_map. cbn [foldr uncurry fst snd].
  by rewrite !lookup_insert_ne, lookup_insert_eq by done.
Qed.


(** * Further properties of the notebooks *)

(** ** The value as a function of the history *)

Section Value.

Import Series.

Lemma count_perm (b : bool) (s1 s2 : list bool) :
  s1 ≡ₚ s2 → count b s1 = count b s2.
Proof. intros H. unfold count. by rewrite H. Qed.

Lemma count_le_length (b : bool) (s : list bool) :
  0 ≤ count b s ≤ Z.of_nat (length s).
Proof. unfold count. pose proof (length_filter (λ x, x = b) s). lia. Qed.

Lemma count_true_pos (s : list bool) : true ∈ s → 1 ≤ count true s.
Proof.
  induction s as [|x s IH]; intros H; [by apply elem_of_nil in H|].
  rewrite count_cons. pose proof (count_le_length true s).
  apply elem_of_cons in H as [<-|H']; [rewrite decide_True by done; lia|].
  specialize (IH H'). case_decide; lia.
Qed.

Lemma count_true_length_all (s : list bool) :
  count true s = Z.of_nat (length s) → Forall (eq true) s.
Proof.
  induction s as [|x s IH]; [done|].
  rewrite count_cons. cbn [length]. pose proof (count_le_length true s) as Hle.
  destruct x.
  - rewrite decide_True by done. intros E. constructor; [done|]. apply IH. lia.
  - rewrite decide_False by done. lia.
Qed.

Lemma count_true_one_last (s : list bool) :
  count true (s ++ [true]) = 1 → s = replicate (length s) false.
Proof.
  rewrite count_app. change (count true [true]) with 1. intros H.
  assert (H0 : count true s = 0) by lia. clear H.
  induction s as [|x s IH]; [done|].
  rewrite count_cons in H0. pose proof (count_le_length true s) as Hle.
  destruct x; [rewrite decide_True in H0 by done; lia|].
  rewrite decide_False in H0 by done. cbn. f_equal. apply IH. lia.
Qed.

End Value.

(** X1. With the defect flagged at the target, the value lies between -1
    and the history length minus 2; it is -1 exactly when every submission
    of the history is flagged, and the length minus 2 exactly when the
    target is the first occurrence. *)
Theorem last_encountered_col_bounds (flag : list bool) :
  last flag = Some true →
  ∃ v : Z,
    last_encountered_col flag = Ok (Some v)
    ∧ -1 ≤ v ≤ Z.of_nat (length flag) - 2
    ∧ (v = -1 ↔ Forall (eq true) flag)
    ∧ (v = Z.of_nat (length flag) - 2 ↔ first_occurrence flag).
Proof.
  intros Hlast.
  assert (Hin : true ∈ flag) by (by apply last_Some_elem_of).
  pose proof (count_true_pos _ Hin) as Hpos.
  pose proof (count_le_length true flag) as Hle.
  exists (Z.of_nat (length flag) - 1 - Series.count true flag).
  split_and!.
  - rewrite last_encountered_col_closed. destruct flag; [done|].
    by rewrite decide_True.
  - lia.
  - lia.
  - split.
    + intros H. apply count_true_length_all. lia.
    + intros H. rewrite (count_true_all _ H). lia.
  - apply last_Some in Hlast as [pre ->]. split.
    + intros H. exists (length pre).
      rewrite <- (count_true_one_last pre); [done|lia].
    + intros [m E]. apply app_inj_tail in E as [-> _].
      rewrite count_app, count_true_replicate_false.
      change (Series.count true [true]) with 1. lia.
Qed.

Lemma last_encountered_col_bounds_witness :
  ∃ v : Z,
    last_encountered_col [true; false; false; true] = Ok (Some v)
    ∧ -1 ≤ v ≤ Z.of_nat (length [true; false; false; true]) - 2
    ∧ (v = -1 ↔ Forall (eq true) [true; false; false; true])
    ∧ (v = Z.of_nat (length [true; false; false; true]) - 2
       ↔ first_occurrence [true; false; false; true]).
Proof.
  apply (last_encountered_col_bounds [true; false; false; true]).
  reflexivity.
Defined.

(** X2. The value does not see the order of the submissions: two histories
    with the same flags in any order give the same result, error and NaN
    included. *)
Theorem last_encountered_col_perm (flag1 flag2 : list bool) :
  flag1 ≡ₚ flag2 → last_encountered_col flag1 = last_encountered_col flag2.
Proof.
  intros H. rewrite !last_encountered_col_closed.
  destruct flag1 as [|b1 s1], flag2 as [|b2 s2]; try done.
  - by apply Permutation_nil_cons in H.
  - symmetry in H. by apply Permutation_nil_cons in H.
  - rewrite (Permutation_length H), (count_perm true _ _ H).
    apply (f_equal Ok).
    destruct (decide (true ∈ b1 :: s1)) as [H1|H1];
      destruct (decide (true ∈ b2 :: s2)) as [H2|H2]; try done.
    + by rewrite H in H1.
    + by rewrite <- H in H2.
Qed.

Lemma last_encountered_col_perm_witness :
  last_encountered_col [true; false; false; true]
  = last_encountered_col [false; true; false; true].
Proof.
  apply last_encountered_col_perm.
  apply perm_swap.
Defined.

(** ** The series and the truncated histories *)

Section Truncation.

Import Series.

Lemma take_cumsum_from (n : nat) (s : list bool) :
  ∀ acc, take n (cumsum_from acc s) = cumsum_from acc (take n s).
Proof.
  revert n. induction s as [|b s IH]; intros [|n] acc; cbn; try done.
  by rewrite IH.
Qed.

Lemma take_where (n : nat) (vs : list Z) :
  ∀ cond, take n (where_ vs cond) = where_ (take n vs) (take n cond).
Proof.
  revert n. induction vs as [|v vs IH]; intros [|n] [|c cond]; cbn; try done.
  by rewrite IH.
Qed.

Lemma take_ffill_from (n : nat) (s : list num) :
  ∀ prev, take n (ffill_from prev s) = ffill_from prev (take n s).
Proof.
  revert n. induction s as [|x s IH]; intros [|n] prev; cbn; try done.
  by rewrite IH.
Qed.

Lemma take_rsub_from (n : nat) (s : list num) :
  ∀ start, take n (rsub_from start s) = rsub_from start (take n s).
Proof.
  revert n. induction s as [|x s IH]; intros [|n] start; cbn; try done.
  by rewrite IH.
Qed.

Lemma length_rsub_from (s : list num) :
  ∀ start, length (rsub_from start s) = length s.
Proof. induction s as [|x s IH]; intros start; cbn; [done|]. by rewrite IH. Qed.

Lemma take_last_encountered_series (n : nat) (flag : list bool) :
  take n (last_encountered_series flag) = last_encountered_series (take n flag).
Proof.
  unfold last_encountered_series, index_sub, ffill, cumsum.
  by rewrite take_rsub_from, take_ffill_from, take_where, take_cumsum_from.
Qed.

Lemma length_last_encountered_series (flag : list bool) :
  length (last_encountered_series flag) = length flag.
Proof.
  unfold last_encountered_series, index_sub, ffill, cumsum.
  by rewrite length_rsub_from, length_ffill_from, length_where_cumsum.
Qed.

Lemma last_take_S {A} (l : list A) (i : nat) :
  (i < length l)%nat → last (take (S i) l) = l !! i.
Proof.
  intros Hi. rewrite last_lookup, length_take.
  replace (pred (S i `min` length l)) with i by lia.
  apply lookup_take_lt. lia.
Qed.

End Truncation.

(** X3. Cell [i] of the series over a whole history is the value that the
    expression gives on the history truncated after position [i]: one pass
    over the full history of a student yields the values of all its
    targets.  The series is as long as the history. *)
Theorem last_encountered_series_truncated (flag : list bool) (i : nat) :
  (i < length flag)%nat →
  length (last_encountered_series flag) = length flag
  ∧ of_option IndexError (last_encountered_series flag !! i)
    = last_encountered_col (take (S i) flag).
Proof.
  intros Hi. split; [apply length_last_encountered_series|].
  change (last_encountered_col (take (S i) flag))
    with (of_option IndexError
            (last (last_encountered_series (take (S i) flag)))).
  rewrite <- take_last_encountered_series, last_take_S; [done|].
  by rewrite length_last_encountered_series.
Qed.

Lemma last_encountered_series_truncated_witness :
  of_option IndexError
    (last_encountered_series [true; false; false; true; false; true] !! 3%nat)
  = last_encountered_col (take 4 [true; false; false; true; false; true]).
Proof.
  apply (last_encountered_series_truncated
           [true; false; false; true; false; true] 3).
  cbn. lia.
Defined.

(** ** Failures of the expression on a frame *)

Lemma traverse_Ok {A B} (f : A → result B) (l : list A) (bs : list B) :
  traverse f l = Ok bs ↔ Forall2 (λ a b, f a = Ok b) l bs.
Proof.
  revert bs. induction l as [|a l IH]; intros bs; cbn.
  - split; [intros [= <-]; constructor|by intros ->%Forall2_nil_inv_l].
  - destruct (f a) as [b|e] eqn:E; cbn.
    + destruct (traverse f l) as [bs'|e'] eqn:E'; cbn.
      * split.
        -- intros [= <-]. constructor; [done|]. by apply IH.
        -- intros (b' & bs'' & Hb & Hbs & ->)%Forall2_cons_inv_l.
           apply IH in Hbs. congruence.
      * split; [done|].
        intros (b' & bs'' & Hb & Hbs & ->)%Forall2_cons_inv_l.
        apply IH in Hbs. done.
    + split; [done|].
      intros (b' & bs'' & Hb & Hbs & ->)%Forall2_cons_inv_l. congruence.
Qed.

Lemma traverse_Raise {A B} (f : A → result B) (l : list A) (e : error) :
  traverse f l = Raise e → ∃ a, a ∈ l ∧ f a = Raise e.
Proof.
  induction l as [|a l IH]; cbn; [done|].
  destruct (f a) as [b|e'] eqn:E; cbn.
  - destruct (traverse f l) as [bs|e''] eqn:E'; cbn; [done|].
    intros [= ->]. destruct (IH eq_refl) as (a' & Ha' & Hf).
    exists a'. split; [by right|done].
  - intros [= ->]. exists a. split; [by left|done].
Qed.

Lemma traverse_total {A B} (f : A → result B) (l : list A) :
  (∀ a, a ∈ l → ∃ b, f a = Ok b) → ∃ bs, traverse f l = Ok bs.
Proof.
  intros H. destruct (traverse f l) as [bs|e] eqn:E; [by eauto|].
  apply traverse_Raise in E as (a & Ha & Hf).
  destruct (H a Ha) as [b Hb]. congruence.
Qed.

Lemma column_Ok_length {V} (d : Z) (h : list (gmap Z V)) (flag : list V) :
  Frame.column d h = Ok flag → length flag = length h.
Proof.
  intros H%traverse_Ok. symmetry. by eapply Forall2_length.
Qed.

(** X4. On a frame with rows the expression raises KeyError exactly when
    a row has no column for the defect, and nothing else, never IndexError;
    it gives a result exactly when every row carries the column. *)
Theorem last_encountered_failures (h : list (gmap Z bool)) (d : Z) :
  h ≠ [] →
  (last_encountered h d = Raise KeyError ↔ ∃ r, r ∈ h ∧ r !! d = None)
  ∧ (∀ e, last_encountered h d = Raise e → e = KeyError)
  ∧ ((∃ x, last_encountered h d = Ok x) ↔ ∀ r, r ∈ h → is_Some (r !! d)).
Proof.
  intros Hne. unfold last_encountered.
  destruct (Frame.column d h) as [flag|e] eqn:E; cbn [bind].
  - pose proof (column_Ok_length _ _ _ E) as Hlen.
    assert (Hall : ∀ r, r ∈ h → is_Some (r !! d)).
    { apply traverse_Ok in E. intros r Hr.
      apply list_elem_of_lookup in Hr as [i Hi].
      eapply Forall2_lookup_l in E as (b & _ & Hb); [|exact Hi].
      destruct (r !! d); [by eauto|done]. }
    rewrite last_encountered_col_closed.
    destruct flag as [|b s]; [by destruct h|].
    split_and!.
    + split; [done|]. intros (r & Hr & Hnone).
      destruct (Hall r Hr) as [? ?]. congruence.
    + done.
    + split; [done|]. by eauto.
  - apply traverse_Raise in E as (r & Hr & Hf).
    destruct (r !! d) as [b|] eqn:Hd; [done|]. injection Hf as <-.
    split_and!.
    + split; [by eauto|done].
    + by intros e [= <-].
    + split; [by intros [x Hx]|]. intros Hall.
      destruct (Hall r Hr) as [? ?]. congruence.
Qed.

Lemma last_encountered_failures_witness :
  last_encountered [ {[ 7 := true ]}; {[ 9 := true ]} ] 7 = Raise KeyError
  ↔ ∃ r : gmap Z bool,
      r ∈ [ ({[ 7 := true ]} : gmap Z bool); {[ 9 := true ]} ]
      ∧ r !! 7 = None.
Proof.
  apply (last_encountered_failures [ {[ 7 := true ]}; {[ 9 := true ]} ] 7).
  done.
Defined.

(** ** Building the history frame *)

Lemma loc_Ok_lookup {V} (labels : list Z) (df : gmap Z (gmap Z V))
    (rows : list (gmap Z V)) :
  Frame.loc labels df = Ok rows ↔ Forall2 (λ i r, df !! i = Some r) labels rows.
Proof.
  unfold Frame.loc. rewrite traverse_Ok.
  split; intros H; eapply Forall2_impl; try exact H;
    intros i r; cbn; destruct (df !! i); cbn; congruence.
Qed.

Lemma defect_history_total {srt : Sorter} (log : list submission)
    (defect_log : gmap Z (gmap Z Z)) (row : submission) :
  (∀ r, r ∈ history_rows log row → is_Some (defect_log !! idx r)) →
  ∃ h, defect_history log defect_log row = Ok h
       ∧ length h = length (history_rows log row)
       ∧ ∀ i r, history_rows log row !! i = Some r →
                h !! i
                = fmap (M:=gmap Z) (λ v, negb (v =? 0))
                    <$> defect_log !! idx r.
Proof.
  intros Hall. unfold defect_history.
  destruct (traverse_total
              (λ i, of_option KeyError (defect_log !! i))
              (idx <$> history_rows log row)) as [rows Hrows].
  { intros i (r & -> & Hr)%list_elem_of_fmap.
    destruct (Hall r Hr) as [x ->]. by eexists. }
  fold (Frame.loc (idx <$> history_rows log row) defect_log) in Hrows.
  rewrite Hrows. cbn [bind]. eexists. split; [done|].
  apply loc_Ok_lookup in Hrows.
  split.
  - unfold Frame.astype_bool. rewrite length_fmap.
    rewrite <- (Forall2_length _ _ _ Hrows). by rewrite length_fmap.
  - intros i r Hi. unfold Frame.astype_bool. rewrite list_lookup_fmap.
    eapply Forall2_lookup_l in Hrows as (x & Hx & Hd).
    2:{ rewrite list_lookup_fmap, Hi. done. }
    by rewrite Hx, Hd.
Qed.

(** X5. The history frame of a target fails only with KeyError, and exactly
    when [defect_log] has no row for a submission of the history; otherwise
    it has one row per submission of the history, in the same order, each
    the row of [defect_log] with its counts turned into flags. *)
Theorem defect_history_rows {srt : Sorter} (log : list submission)
    (defect_log : gmap Z (gmap Z Z)) (row : submission) :
  (∀ e, defect_history log defect_log row = Raise e →
        e = KeyError
        ∧ ∃ r, r ∈ history_rows log row ∧ defect_log !! idx r = None)
  ∧ ((∀ r, r ∈ history_rows log row → is_Some (defect_log !! idx r)) →
     ∃ h, defect_history log defect_log row = Ok h
          ∧ length h = length (history_rows log row)
          ∧ ∀ i r, history_rows log row !! i = Some r →
                   h !! i
                   = fmap (M:=gmap Z) (λ v, negb (v =? 0))
                       <$> defect_log !! idx r).
Proof.
  unfold defect_history. split.
  - intros e He.
    destruct (Frame.loc (idx <$> history_rows log row) defect_log)
      as [rows|e'] eqn:E; [done|].
    cbn in He. injection He as ->.
    apply traverse_Raise in E as (i & Hi & Hf).
    apply list_elem_of_fmap in Hi as (r & -> & Hr).
    destruct (defect_log !! idx r) eqn:Hd; [done|].
    injection Hf as <-. eauto.
  - apply defect_history_total.
Qed.

Lemma defect_history_rows_witness :
  ∃ h, defect_history (srt:=insertion_sorter)
         [Submission 10 1 3 500; Submission 11 1 4 600]
         {[ 10 := {[ 7 := 0 ]}; 11 := {[ 7 := 2 ]} ]}
         (Submission 11 1 4 600) = Ok h
       ∧ length h = 2%nat.
Proof.
  destruct (proj2 (defect_history_rows (srt:=insertion_sorter)
                     [Submission 10 1 3 500; Submission 11 1 4 600]
                     {[ 10 := {[ 7 := 0 ]}; 11 := {[ 7 := 2 ]} ]}
                     (Submission 11 1 4 600))) as (h & Hh & Hlen & _).
  - intros r Hr. vm_compute in Hr.
    apply elem_of_cons in Hr as [->|Hr]; [by eexists|].
    apply list_elem_of_singleton in Hr as ->. by eexists.
  - exists h. split; [exact Hh|exact Hlen].
Defined.

(** ** The histories of two targets *)

Section Sorting.

Lemma Forall_filter_sub {A} (Q P : A → Prop) `{∀ x, Decision (P x)}
    (l : list A) :
  Forall Q l → Forall Q (filter P l).
Proof.
  rewrite !Forall_forall. intros HQ x [_ Hx]%list_elem_of_filter. by apply HQ.
Qed.

Lemma filter_none {A} (P : A → Prop) `{∀ x, Decision (P x)} (l : list A) :
  Forall (λ x, ¬ P x) l → filter P l = [].
Proof.
  induction 1 as [|x l Hx _ IH]; [done|]. by rewrite filter_cons_False.
Qed.

Lemma StronglySorted_filter_time (P : submission → Prop)
    `{∀ x, Decision (P x)} (l : list submission) :
  StronglySorted time_le l → StronglySorted time_le (filter P l).
Proof.
  induction 1 as [|x l Hl IH Hx]; [constructor|].
  rewrite filter_cons. case_decide; [|done].
  constructor; [done|]. by apply Forall_filter_sub.
Qed.

Lemma filter_time_prefix (T : Z) (l : list submission) :
  StronglySorted time_le l →
  filter (λ r, time r ≤ T) l `prefix_of` l.
Proof.
  induction 1 as [|x l Hl IH Hx]; [done|].
  rewrite filter_cons. case_decide as HxT; [by apply prefix_cons|].
  replace (filter (λ r, time r ≤ T) l) with (@nil submission);
    [apply prefix_nil|].
  symmetry. apply filter_none.
  eapply Forall_impl; [exact Hx|]. unfold time_le. intros z ?. lia.
Qed.

Lemma prefix_take_length {A} (l1 l2 : list A) :
  l1 `prefix_of` l2 → l1 = take (length l1) l2.
Proof. intros [k ->]. by rewrite take_app_length. Qed.

Context {srt : Sorter}.

(** The rows of the later history up to the earlier time are its first
    rows, as many as the earlier history has, and the same rows. *)
Lemma history_rows_take (log : list submission) (r1 r2 : submission) :
  user r1 = user r2 →
  time r1 ≤ time r2 →
  let n := length (history_rows log r1) in
  history_rows log r1 ≡ₚ take n (history_rows log r2)
  ∧ take n (history_rows log r2)
    = filter (λ r, time r ≤ time r1) (history_rows log r2)
  ∧ (n ≤ length (history_rows log r2))%nat.
Proof.
  intros Hu Ht n.
  set (early := filter (λ r, time r ≤ time r1) (history_rows log r2)).
  assert (Hperm : history_rows log r1 ≡ₚ early).
  { unfold early, history_rows. rewrite !sort_values_perm.
    rewrite list_filter_filter.
    erewrite (list_filter_iff (in_history r1)); [done|].
    intros r. unfold in_history. rewrite Hu. split; [|tauto].
    intros [? ?]. split_and!; [lia|done|lia]. }
  assert (Hpre : early `prefix_of` history_rows log r2)
    by apply filter_time_prefix, sort_values_sorted.
  assert (Hn : n = length early) by (subst n; by rewrite Hperm).
  pose proof (prefix_length _ _ Hpre) as Hlen.
  apply prefix_take_length in Hpre. rewrite Hn, <- Hpre.
  split_and!; [done|done|lia].
Qed.

End Sorting.

(** X7. Histories grow by extension: for two targets of one student, the
    rows of the later history up to the earlier time are its first rows, as
    many as the earlier history has, and the earlier history holds the same
    rows, in an order that may differ among equal timestamps. *)
Theorem history_rows_prefix {srt : Sorter} (log : list submission)
    (r1 r2 : submission) :
  user r1 = user r2 →
  time r1 ≤ time r2 →
  history_rows log r1
  ≡ₚ take (length (history_rows log r1)) (history_rows log r2)
  ∧ take (length (history_rows log r1)) (history_rows log r2)
    = filter (λ r, time r ≤ time r1) (history_rows log r2)
  ∧ (length (history_rows log r1) ≤ length (history_rows log r2))%nat.
Proof. intros Hu Ht. by apply history_rows_take. Qed.

Lemma history_rows_prefix_witness :
  history_rows (srt:=insertion_sorter)
    [Submission 11 1 4 600; Submission 10 1 3 500] (Submission 10 1 3 500)
  ≡ₚ take (length (history_rows (srt:=insertion_sorter)
                     [Submission 11 1 4 600; Submission 10 1 3 500]
                     (Submission 10 1 3 500)))
       (history_rows (srt:=insertion_sorter)
          [Submission 11 1 4 600; Submission 10 1 3 500]
          (Submission 11 1 4 600)).
Proof.
  apply (history_rows_prefix (srt:=insertion_sorter)
           [Submission 11 1 4 600; Submission 10 1 3 500]
           (Submission 10 1 3 500) (Submission 11 1 4 600)).
  - reflexivity.
  - cbn. lia.
Defined.

(** ** The severity filter *)

Lemma wrap64_0 : wrap64 0 = 0.
Proof. reflexivity. Qed.

Lemma has_close_pair_cons (a : Z) (values : list Z) :
  has_close_pair (a :: values) = true.
Proof.
  unfold has_close_pair. apply existsb_exists. exists a. split; [by left|].
  apply existsb_exists. exists a. split; [by left|].
  by rewrite Z.sub_diag, wrap64_0.
Qed.

Lemma row_values_nil (r : gmap Z Z) : row_values r = [] ↔ r = ∅.
Proof.
  unfold row_values. split.
  - intros H. apply fmap_nil_inv in H. by apply map_to_list_empty_iff.
  - intros ->. by rewrite map_to_list_empty.
Qed.

(** X8. [has_close_pair] compares every value with itself as well, so it
    is true of every row of integers that has a value and false only of the
    empty row: the filter built on it keeps each row of a frame that has
    columns, whatever the severities are. *)
Theorem has_close_pair_trivial (values : list Z)
    (filtered : list (gmap Z Z)) :
  (has_close_pair values = true ↔ values ≠ [])
  ∧ (Forall (λ r, r ≠ ∅) filtered → close_pair_rows filtered = filtered).
Proof.
  split.
  - destruct values as [|a vs]; [done|]. by rewrite has_close_pair_cons.
  - intros Hall. unfold close_pair_rows.
    induction Hall as [|r rows Hr _ IH]; [done|].
    rewrite filter_cons_True, IH; [done|].
    rewrite <- row_values_nil in Hr.
    destruct (row_values r) as [|a vs]; [done|].
    apply has_close_pair_cons.
Qed.

Lemma has_close_pair_trivial_witness :
  close_pair_rows [ {[ 3 := 5; 4 := 0; 8 := 1 ]}; {[ 3 := 2; 4 := 0; 8 := 4 ]} ]
  = [ {[ 3 := 5; 4 := 0; 8 := 1 ]}; {[ 3 := 2; 4 := 0; 8 := 4 ]} ].
Proof.
  apply (has_close_pair_trivial []).
  repeat constructor; by vm_compute.
Defined.

(** ** Presence and the number of defects *)

Section Presence.

Lemma sum_zero_one (l : list Z) :
  Forall (λ v, v = 0 ∨ v = 1) l →
  foldr Z.add 0 l = Z.of_nat (length (filter (λ v, 0 < v) l)).
Proof.
  induction 1 as [|v l Hv _ IH]; [done|].
  cbn [foldr]. rewrite IH, filter_cons.
  destruct Hv as [->| ->]; case_decide; cbn [length]; lia.
Qed.

Lemma length_map_filter_to_list (P : Z → Prop) `{∀ v, Decision (P v)}
    (r : gmap Z Z) :
  length (map_to_list (filter (λ kv, P kv.2) r))
  = length (filter P (row_values r)).
Proof.
  unfold row_values.
  induction r as [|d v r Hd IH] using map_ind.
  { by rewrite map_filter_empty, map_to_list_empty. }
  rewrite (map_to_list_insert r) by done.
  cbn [fmap list_fmap snd]. rewrite filter_cons.
  destruct (decide (P v)) as [Hv|Hv].
  - rewrite map_filter_insert_True by done.
    rewrite map_to_list_insert.
    + cbn [length]. by rewrite IH.
    + by rewrite map_lookup_filter, Hd.
  - rewrite map_filter_insert_False by done.
    by rewrite delete_id.
Qed.

Lemma wrap64_small (z : Z) : - 2 ^ 63 ≤ z < 2 ^ 63 → wrap64 z = z.
Proof.
  intros Hz. unfold wrap64.
  rewrite Z.mod_small by lia. lia.
Qed.

Lemma presence_zero_one (rows : gmap Z (gmap Z Z)) (i : Z) (r : gmap Z Z) :
  presence rows !! i = Some r →
  Forall (λ v, v = 0 ∨ v = 1) (row_values r).
Proof.
  unfold presence. rewrite lookup_fmap.
  destruct (rows !! i) as [r0|]; [|done]. intros [= <-].
  unfold row_values. rewrite map_to_list_fmap.
  apply Forall_fmap, Forall_fmap, Forall_forall.
  intros [d v] _. cbn. case_bool_decide; auto.
Qed.

End Presence.

(** X9. After [(defect_log > 0).astype(int)] the sum of a row is the number
    of defects present in the submission, the number of turns of the inner
    loop: the sample filter [defect_log.sum(axis=1) >= 2] keeps the
    submissions with at least two different defects. *)
Theorem presence_row_sum (rows : gmap Z (gmap Z Z)) (i : Z) (r : gmap Z Z)
    (ds : list Z) :
  presence rows !! i = Some r →
  defects_present (presence rows) i = Ok ds →
  Z.of_nat (size r) < 2 ^ 63 →
  row_sum r = Z.of_nat (length ds)
  ∧ (2 ≤ row_sum r ↔ (2 ≤ length ds)%nat)
  ∧ NoDup ds.
Proof.
  intros Hr Hds Hsize.
  unfold defects_present in Hds. rewrite Hr in Hds. injection Hds as <-.
  assert (Hlen : row_sum r
    = Z.of_nat (length ((map_to_list (filter (λ kv : Z * Z, 0 < kv.2) r)).*1))).
  { unfold row_sum.
    rewrite (sum_zero_one _ (presence_zero_one _ _ _ Hr)).
    rewrite length_fmap, (length_map_filter_to_list (λ v, 0 < v)).
    apply wrap64_small.
    pose proof (length_filter (λ v, 0 < v) (row_values r)) as Hle.
    unfold row_values in Hle at 2. rewrite length_fmap in Hle.
    rewrite length_map_to_list in Hle. lia. }
  split_and!; [done|rewrite Hlen; lia|].
  apply NoDup_fst_map_to_list.
Qed.

Lemma presence_row_sum_witness :
  row_sum {[ 4 := 1; 5 := 0; 6 := 1 ]} = Z.of_nat (length [6; 4]).
Proof.
  apply (presence_row_sum {[ 10 := {[ 4 := 7; 5 := 0; 6 := 1 ]} ]} 10
           {[ 4 := 1; 5 := 0; 6 := 1 ]} [6; 4]).
  - by vm_compute.
  - by vm_compute.
  - by vm_compute.
Defined.

(** ** Items and the log after loading *)

Lemma filter_ext_in {A} (P Q : A → Prop) `{∀ x, Decision (P x)}
    `{∀ x, Decision (Q x)} (l : list A) :
  (∀ x, x ∈ l → P x ↔ Q x) → filter P l = filter Q l.
Proof.
  induction l as [|x l IH]; intros Hext; [done|].
  rewrite !filter_cons, IH by (intros y Hy; apply Hext; by right).
  pose proof (Hext x (list_elem_of_here _ _)).
  destruct (decide (P x)), (decide (Q x)); try done; tauto.
Qed.

Lemma value_counts_lookup (s : list Z) (x : Z) :
  value_counts s !! x
  = if decide (x ∈ s)
    then Some (Z.of_nat (length (filter (λ y, y = x) s)))
    else None.
Proof.
  induction s as [|y s IH]; [done|].
  cbn [value_counts foldr]. fold (value_counts s).
  rewrite lookup_insert, filter_cons.
  destruct (decide (y = x)) as [->|Hne].
  - rewrite decide_True by (by left). rewrite IH.
    destruct (decide (x ∈ s)) as [Hin|Hnin]; cbn [default length];
      apply (f_equal Some); [unfold id; lia|].
    rewrite filter_none; [done|].
    apply Forall_forall. by intros z Hz ->.
  - rewrite IH. destruct (decide (x ∈ s)) as [Hin|Hnin].
    + by rewrite decide_True by (by right).
    + rewrite decide_False; [done|].
      intros [?|?]%elem_of_cons; done.
Qed.

Lemma keep_items_dom (log : list submission) (i : Z) :
  i ∈ dom ((λ c, bool_decide (100 < c)) <$> value_counts (item <$> log))
  ↔ i ∈ item <$> log.
Proof.
  rewrite dom_fmap_L, elem_of_dom, value_counts_lookup.
  case_decide; [by split; eauto|]. split; [by intros [? ?]|done].
Qed.

Lemma keep_items_lookup {V} (items : gmap Z V) (log : list submission)
    (i : Z) :
  keep_items items log !! i
  = if decide (i ∈ item <$> log) then items !! i else None.
Proof.
  unfold keep_items. rewrite map_lookup_filter.
  destruct (items !! i) as [v|]; cbn; [|by case_decide].
  destruct (decide (i ∈ item <$> log)) as [Hin|Hnin].
  - rewrite option_guard_True; [done|]. by apply keep_items_dom.
  - rewrite option_guard_False; [done|]. cbn. by rewrite keep_items_dom.
Qed.

(** X10. The cell commented "keep only items with at least 100 (correct)
    submission" keeps every item that has a submission in the log, one
    being enough: the index of the compared counts is the index of the
    counts.  An item without submissions is dropped. *)
Theorem keep_items_any_count {V} (items : gmap Z V) (log : list submission)
    (i : Z) :
  keep_items items log !! i
  = (if decide (i ∈ item <$> log) then items !! i else None)
  ∧ value_counts (item <$> log) !! i
    = (if decide (i ∈ item <$> log)
       then Some (Z.of_nat (length (filter (λ y, y = i) (item <$> log))))
       else None).
Proof. split; [apply keep_items_lookup|apply value_counts_lookup]. Qed.

(** X11. After the two filters of that cell the log holds the rows whose
    item is in the item table, in their order, and every row of it finds its
    item in the filtered table: [items.loc[row['item']]] has a row. *)
Theorem keep_log_items {V} (items : gmap Z V) (log : list submission) :
  keep_log (keep_items items log) log
  = filter (λ r, is_Some (items !! item r)) log
  ∧ ∀ r, r ∈ keep_log (keep_items items log) log →
         is_Some (keep_items items log !! item r)
         ∧ keep_items items log !! item r = items !! item r.
Proof.
  assert (Hdom : ∀ r, r ∈ log →
            item r ∈ dom (keep_items items log) ↔ is_Some (items !! item r)).
  { intros r Hr. rewrite elem_of_dom, keep_items_lookup.
    rewrite decide_True; [done|]. by apply list_elem_of_fmap_2. }
  split.
  - unfold keep_log. apply filter_ext_in. intros r Hr. by apply Hdom.
  - intros r [Hr Hin]%list_elem_of_filter. split.
    + by apply elem_of_dom.
    + rewrite keep_items_lookup.
      rewrite decide_True; [done|]. by apply list_elem_of_fmap_2.
Qed.

(** ** From EduLint codes to defect ids *)

Section Codes.

Let put (m : gmap string Z) (ic : Z * string) : gmap string Z :=
  <[ic.2 := ic.1]> m.

Lemma foldl_put_other (c : string) (l : list (Z * string)) :
  ∀ m, Forall (λ ic, ic.2 ≠ c) l → foldl put m l !! c = m !! c.
Proof.
  induction l as [|ic l IH]; intros m Hl; [done|].
  apply Forall_cons in Hl as [Hic Hl]. cbn [foldl].
  rewrite IH by done. unfold put. by rewrite lookup_insert_ne.
Qed.

Lemma foldl_put_tuple (c : string) (i : Z) (cs : list string) :
  ∀ m, c ∈ cs → foldl put m ((λ c', (i, c')) <$> cs) !! c = Some i.
Proof.
  induction cs as [|c' cs IH]; intros m Hc; [by apply elem_of_nil in Hc|].
  cbn [fmap list_fmap foldl].
  destruct (decide (c ∈ cs)) as [Hin|Hnin]; [by apply IH|].
  apply elem_of_cons in Hc as [->|Hc]; [|done].
  rewrite foldl_put_other.
  - unfold put. cbn. by rewrite lookup_insert_eq.
  - apply Forall_fmap, Forall_forall. intros c'' Hc'' E. cbn in E.
    by subst.
Qed.

Lemma explode_app (l1 l2 : list defect_codes) :
  explode (l1 ++ l2) = explode l1 ++ explode l2.
Proof. unfold explode. apply bind_app. Qed.

Lemma explode_cons (d : defect_codes) (l : list defect_codes) :
  explode (d :: l)
  = ((λ c, (d_id d, c)) <$> (d_code d :: d_more d)) ++ explode l.
Proof. done. Qed.

Lemma explode_other (c : string) (l : list defect_codes) :
  Forall (λ d, c ∉ d_code d :: d_more d) l →
  Forall (λ ic, ic.2 ≠ c) (explode l).
Proof.
  induction 1 as [|d l Hd _ IH]; [constructor|].
  rewrite explode_cons. apply Forall_app. split; [|done].
  apply Forall_fmap, Forall_forall. intros c' Hc' E. cbn in E. by subst.
Qed.

Lemma code_to_defect_id_last (pre post : list defect_codes)
    (d : defect_codes) (c : string) :
  c ∈ d_code d :: d_more d →
  Forall (λ d', c ∉ d_code d' :: d_more d') post →
  code_to_defect_id (pre ++ d :: post) !! c = Some (d_id d).
Proof.
  intros Hc Hpost. unfold code_to_defect_id.
  rewrite explode_app, explode_cons, !foldl_app.
  fold put. rewrite foldl_put_other by (by apply explode_other).
  by apply foldl_put_tuple.
Qed.

Lemma code_to_defect_id_none (defects : list defect_codes) (c : string) :
  Forall (λ d, c ∉ d_code d :: d_more d) defects →
  code_to_defect_id defects !! c = None.
Proof.
  intros H. unfold code_to_defect_id. fold put.
  by rewrite foldl_put_other by (by apply explode_other).
Qed.

End Codes.

(** X12. [code_to_defect_id] maps a code to the defect that lists it; when
    several defects list one code, the one latest in the table gets it; a
    code that no defect lists is no key. *)
Theorem code_to_defect_id_last_wins (pre post : list defect_codes)
    (d : defect_codes) (c : string) :
  (c ∈ d_code d :: d_more d →
   Forall (λ d', c ∉ d_code d' :: d_more d') post →
   code_to_defect_id (pre ++ d :: post) !! c = Some (d_id d))
  ∧ (Forall (λ d', c ∉ d_code d' :: d_more d') (pre ++ d :: post) ↔
     code_to_defect_id (pre ++ d :: post) !! c = None).
Proof.
  split; [apply code_to_defect_id_last|]. split.
  - apply code_to_defect_id_none.
  - intros Hnone.
    induction (pre ++ d :: post) as [|d0 l IH] using rev_ind; [constructor|].
    destruct (decide (c ∈ d_code d0 :: d_more d0)) as [Hin|Hnin].
    + rewrite (code_to_defect_id_last l [] d0 c Hin) in Hnone by constructor.
      done.
    + apply Forall_app. split; [|by repeat constructor].
      apply IH. unfold code_to_defect_id in *.
      rewrite explode_app, foldl_app in Hnone.
      rewrite foldl_put_other in Hnone; [done|].
      apply explode_other. by repeat constructor.
Qed.

Lemma code_to_defect_id_last_wins_witness :
  code_to_defect_id
    ([DefectCodes 1 "R1714" ["C0123"]]
       ++ DefectCodes 2 "C0123" [] :: [DefectCodes 3 "W0611" []])
  !! "C0123" = Some 2.
Proof.
  apply (code_to_defect_id_last_wins
           [DefectCodes 1 "R1714" ["C0123"]] [DefectCodes 3 "W0611" []]
           (DefectCodes 2 "C0123" []) "C0123").
  - by left.
  - apply (bool_decide_unpack _). by vm_compute.
Defined.

(** ** The defect log of sample_collection *)

Section Vectorize.

Lemma tabulate_lookup {A} (f : Z → A) (ks : list Z) (k : Z) :
  tabulate f ks !! k = if decide (k ∈ ks) then Some (f k) else None.
Proof.
  unfold tabulate. induction ks as [|k' ks IH]; [done|].
  cbn [fmap list_fmap]. rewrite list_to_map_cons, lookup_insert, IH.
  destruct (decide (k' = k)) as [->|Hne].
  - by rewrite decide_True by (by left).
  - destruct (decide (k ∈ ks)) as [Hin|Hnin].
    + by rewrite decide_True by (by right).
    + rewrite decide_False; [done|]. intros [?|?]%elem_of_cons; by subst.
Qed.

Lemma length_filter_pos {A} `{EqDecision A} (x : A) (l : list A) :
  (0 < length (filter (λ y, y = x) l))%nat ↔ x ∈ l.
Proof.
  induction l as [|y l IH]; [cbn; split; [lia|by intros ?%elem_of_nil]|].
  rewrite filter_cons, elem_of_cons.
  destruct (decide (y = x)) as [->|Hne]; cbn [length].
  - split; [by left|lia].
  - rewrite IH. split; [by right|]. intros [?|?]; [by subst|done].
Qed.

Lemma defect_messages_elem (log : list submission) (codes : gmap string Z)
    (messages : list message) (i d : Z) :
  (i, d) ∈ defect_messages log codes messages
  ↔ ∃ m, m ∈ messages
         ∧ log_entry m = i
         ∧ (message_text m
            ∉ ["no newline at end of file"; "trailing whitespace"])
         ∧ i ∈ (idx <$> log)
         ∧ codes !! defect_code m = Some d.
Proof.
  unfold defect_messages. rewrite list_elem_of_omap. split.
  - intros (m & Hm & Hd).
    apply list_elem_of_filter in Hm as [_ Hm].
    apply list_elem_of_filter in Hm as [Hlog Hm].
    apply list_elem_of_filter in Hm as [Htext Hm].
    destruct (codes !! defect_code m) as [d'|] eqn:E; [|done].
    cbn in Hd. injection Hd as <- <-. by exists m.
  - intros (m & Hm & <- & Htext & Hlog & Hd). exists m. split.
    + repeat (apply list_elem_of_filter; split; [by eauto|]). done.
    + by rewrite Hd.
Qed.

Lemma crosstab_reindex_cell (labels : list Z) (pairs : list (Z * Z))
    (i d : Z) (r : gmap Z Z) :
  t_rows (reindex labels 0 (crosstab pairs)) !! i = Some r →
  r !! d
  = if decide (d ∈ pairs.*2)
    then Some (Z.of_nat (length (filter (λ p, p = (i, d)) pairs)))
    else None.
Proof.
  unfold reindex, crosstab. cbn [t_rows t_columns].
  rewrite (tabulate_lookup _ labels i).
  case_decide as Hi; [|done]. intros [= <-].
  rewrite (tabulate_lookup _ (remove_dups pairs.*1) i).
  destruct (decide (i ∈ remove_dups pairs.*1)) as [Hin|Hnin];
    cbn [from_option id]; rewrite (tabulate_lookup _ _ d).
  - destruct (decide (d ∈ pairs.*2)) as [Hd|Hd].
    + rewrite decide_True; [done|]. by apply elem_of_elements, elem_of_list_to_set.
    + rewrite decide_False; [done|].
      by rewrite elem_of_elements, elem_of_list_to_set.
  - assert (Hzero : filter (λ p, p = (i, d)) pairs = []).
    { apply filter_none, Forall_forall. intros p Hp ->.
      apply Hnin, elem_of_remove_dups.
      by apply (list_elem_of_fmap_2 fst) in Hp. }
    rewrite Hzero.
    destruct (decide (d ∈ pairs.*2)) as [Hd|Hd].
    + rewrite decide_True; [done|]. by apply elem_of_elements, elem_of_list_to_set.
    + rewrite decide_False; [done|].
      by rewrite elem_of_elements, elem_of_list_to_set.
Qed.

End Vectorize.

(** X13. The defect log that sample_collection builds has a row for each
    submission of the log and for nothing else; every row has the same
    columns, the defect ids that some kept message carries; and a cell is 1
    when a kept message of the submission carries the defect, 0 otherwise.
    A message is kept when its text is none of the two whitespace messages,
    its log entry is in the log and its code is a key of
    [code_to_defect_id]. *)
Theorem vectorize_defects_cells (log : list submission)
    (defects : list defect_codes) (messages : list message) (i d : Z) :
  let T := vectorize_defects log defects messages in
  let kept := defect_messages log (code_to_defect_id defects) messages in
  (is_Some (t_rows T !! i) ↔ i ∈ idx <$> log)
  ∧ (d ∈ t_columns T ↔ ∃ j, (j, d) ∈ kept)
  ∧ (∀ r, t_rows T !! i = Some r →
          r !! d = if decide (d ∈ t_columns T)
                   then Some (if decide ((i, d) ∈ kept) then 1 else 0)
                   else None)
  ∧ ((i, d) ∈ kept
     ↔ ∃ m, m ∈ messages
            ∧ log_entry m = i
            ∧ (message_text m
               ∉ ["no newline at end of file"; "trailing whitespace"])
            ∧ i ∈ (idx <$> log)
            ∧ code_to_defect_id defects !! defect_code m = Some d).
Proof.
  intros T kept.
  assert (Hcols : ∀ d', d' ∈ t_columns T ↔ d' ∈ kept.*2).
  { intros d'. subst T. unfold vectorize_defects, reindex, crosstab.
    cbn [t_columns]. apply elem_of_list_to_set. }
  split_and!.
  - subst T. unfold vectorize_defects, presence, reindex. cbn [t_rows].
    rewrite lookup_fmap, (tabulate_lookup _ (idx <$> log) i).
    case_decide; cbn; [by split; eauto|]. split; [by intros [? ?]|done].
  - rewrite Hcols, list_elem_of_fmap. split.
    + intros ([j d'] & -> & Hp). by exists j.
    + intros [j Hj]. by exists (j, d).
  - intros r Hr. subst T. unfold vectorize_defects in Hr.
    cbn [t_rows] in Hr. fold kept in Hr.
    unfold presence in Hr. rewrite lookup_fmap in Hr.
    destruct (t_rows (reindex (idx <$> log) 0 (crosstab kept)) !! i)
      as [r0|] eqn:E; [|done].
    injection Hr as <-. rewrite lookup_fmap.
    rewrite (crosstab_reindex_cell _ _ _ _ _ E).
    destruct (decide (d ∈ kept.*2)) as [Hd|Hd].
    + rewrite decide_True by (by apply Hcols). cbn. f_equal.
      destruct (decide ((i, d) ∈ kept)) as [Hin|Hnin].
      * apply length_filter_pos in Hin.
        rewrite bool_decide_eq_true_2; [done|lia].
      * rewrite bool_decide_eq_false_2; [done|].
        rewrite <- length_filter_pos in Hnin. lia.
    + rewrite decide_False; [done|]. by rewrite Hcols.
  - apply defect_messages_elem.
Qed.

Lemma vectorize_defects_cells_witness :
  ({[ 7 := 1 ]} : gmap Z Z) !! 7
  = if decide (7 ∈ t_columns
                 (vectorize_defects
                    [Submission 10 1 3 500; Submission 11 1 4 600]
                    [DefectCodes 7 "C0123" []]
                    [Message 10 "C0123" "unused variable";
                     Message 11 "C0303" "trailing whitespace"]))
    then Some (if decide ((10, 7)
                          ∈ defect_messages
                              [Submission 10 1 3 500; Submission 11 1 4 600]
                              (code_to_defect_id [DefectCodes 7 "C0123" []])
                              [Message 10 "C0123" "unused variable";
                               Message 11 "C0303" "trailing whitespace"])
               then 1 else 0)
    else None.
Proof.
  apply (proj1 (proj2 (proj2
           (vectorize_defects_cells
              [Submission 10 1 3 500; Submission 11 1 4 600]
              [DefectCodes 7 "C0123" []]
              [Message 10 "C0123" "unused variable";
               Message 11 "C0303" "trailing whitespace"] 10 7)))).
  by vm_compute.
Defined.

(** ** The inner loop on a target of the log *)

Section Loop.

Variable defect_log : gmap Z (gmap Z Z).
Variable d : Z.

Lemma cell_flag_Some (r : submission) (b : bool) :
  cell_flag defect_log d r = Some b
  ↔ ∃ cells, defect_log !! idx r = Some cells
             ∧ ((λ v, negb (v =? 0)) <$> cells) !! d = Some b.
Proof.
  unfold cell_flag. destruct (defect_log !! idx r) as [cells|].
  - split.
    + intros H. exists cells. split; [done|]. rewrite lookup_fmap.
      cbn in H. destruct (cells !! d); cbn in *; congruence.
    + intros (cells' & [= <-] & H). rewrite lookup_fmap in H.
      cbn. destruct (cells !! d); cbn in *; congruence.
  - split; [done|]. by intros (? & ? & _).
Qed.

(** The column of the defect in the history frame built for some rows:
    the flags of the rows, when each has one. *)
Lemma history_frame_flags (rows : list submission) (fl : list bool) :
  (let* rs := Frame.loc (idx <$> rows) defect_log in
   Frame.column d (Frame.astype_bool rs)) = Ok fl
  ↔ Forall2 (λ r b, cell_flag defect_log d r = Some b) rows fl.
Proof.
  split.
  - destruct (Frame.loc (idx <$> rows) defect_log) as [rs|e] eqn:Hrs;
      cbn [bind]; [|done].
    intros Hfl. apply loc_Ok_lookup, Forall2_fmap_l in Hrs.
    apply traverse_Ok in Hfl. unfold Frame.astype_bool in Hfl.
    apply Forall2_fmap_l in Hfl.
    revert fl Hfl. induction Hrs as [|r cells rows rs Hr _ IH]; intros fl Hfl.
    + apply Forall2_nil_inv_l in Hfl as ->. constructor.
    + apply Forall2_cons_inv_l in Hfl as (b & fl' & Hb & Hfl & ->).
      constructor; [|by apply IH].
      apply cell_flag_Some. exists cells. split; [done|].
      unfold compose in Hb.
      destruct (((λ v, negb (v =? 0)) <$> cells) !! d); cbn in Hb; congruence.
  - intros Hfl.
    assert (∃ rs, Frame.loc (idx <$> rows) defect_log = Ok rs
                  ∧ Frame.column d (Frame.astype_bool rs) = Ok fl)
      as (rs & -> & Hcol); [|done].
    induction Hfl as [|r b rows fl Hb _ (rs & Hrs & Hcol)].
    + by exists [].
    + apply cell_flag_Some in Hb as (cells & Hr & Hb).
      exists (cells :: rs). unfold Frame.loc, Frame.column in *.
      cbn [fmap list_fmap traverse Frame.astype_bool].
      rewrite Hr. cbn [of_option bind]. rewrite Hrs. cbn [bind].
      unfold Frame.astype_bool in *. cbn [fmap list_fmap traverse].
      rewrite Hb. cbn [of_option bind]. rewrite Hcol. done.
Qed.

Lemma cell_flag_fmap (rows : list submission) (fl : list bool) :
  Forall2 (λ r b, cell_flag defect_log d r = Some b) rows fl →
  fl = flag_of defect_log d <$> rows.
Proof.
  induction 1 as [|r b rows fl Hb _ IH]; [done|].
  cbn. unfold flag_of at 1. rewrite Hb. cbn. by f_equal.
Qed.

Lemma cell_flag_all (rows : list submission) :
  (∀ r, r ∈ rows → is_Some (cell_flag defect_log d r)) →
  Forall2 (λ r b, cell_flag defect_log d r = Some b) rows
    (flag_of defect_log d <$> rows).
Proof.
  induction rows as [|r rows IH]; intros Hall; [constructor|].
  cbn. constructor.
  - destruct (Hall r) as [b Hb]; [by left|]. unfold flag_of. by rewrite Hb.
  - apply IH. intros r' Hr'. apply Hall. by right.
Qed.

Context {srt : Sorter}.

(** The value that the loop stores for a target, read off the flags of the
    rows of its history. *)
Lemma loop_value (log : list submission) (row : submission) :
  (∀ r, r ∈ history_rows log row → is_Some (cell_flag defect_log d r)) →
  (let* h := defect_history log defect_log row in last_encountered h d)
  = last_encountered_col (flag_of defect_log d <$> history_rows log row).
Proof.
  intros Hall. apply cell_flag_all, history_frame_flags in Hall.
  unfold defect_history, last_encountered.
  destruct (Frame.loc (idx <$> history_rows log row) defect_log) as [rs|e];
    cbn [bind] in *; [|done].
  by rewrite Hall.
Qed.

(** The flags of the history, when the frame and the column were built. *)
Lemma loop_flags (log : list submission) (row : submission)
    (h : list (gmap Z bool)) (flag : list bool) :
  defect_history log defect_log row = Ok h →
  Frame.column d h = Ok flag →
  Forall2 (λ r b, cell_flag defect_log d r = Some b)
    (history_rows log row) flag.
Proof.
  intros Hh Hflag. apply history_frame_flags.
  unfold defect_history in Hh.
  destruct (Frame.loc (idx <$> history_rows log row) defect_log) as [rs|e];
    cbn [bind] in *; [|done].
  by injection Hh as <-.
Qed.

End Loop.

Lemma last_encountered_col_some (flag : list bool) :
  true ∈ flag →
  ∃ v : Z, last_encountered_col flag = Ok (Some v)
           ∧ -1 ≤ v ≤ Z.of_nat (length flag) - 2.
Proof.
  intros Hin.
  pose proof (count_true_pos _ Hin) as Hpos.
  pose proof (count_le_length true flag) as Hle.
  exists (Z.of_nat (length flag) - 1 - Series.count true flag).
  split; [|lia].
  rewrite last_encountered_col_closed. destruct flag; [|by rewrite decide_True].
  by apply elem_of_nil in Hin.
Qed.

(** X14. The loop body succeeds on a target of the log: when [defect_log]
    has a row for every submission of the log, each with a column for the
    defect, the defect is present in the target, and no submission of the
    student logged after the target has its timestamp, the history frame is
    built, one row for each earlier submission of the student and the
    target, and the expression gives a number between -1 and the length of
    the history minus 2. *)
Theorem last_encountered_of_target {srt : Sorter} (log : list submission)
    (defect_log : gmap Z (gmap Z Z)) (row : submission) (d : Z)
    (cells : gmap Z Z) (c : Z) :
  row ∈ log →
  (∀ r, r ∈ log → ∃ cs, defect_log !! idx r = Some cs ∧ is_Some (cs !! d)) →
  defect_log !! idx row = Some cells →
  cells !! d = Some c →
  0 < c →
  last (filter (λ r, user r = user row ∧ time r = time row) log) = Some row →
  ∃ (h : list (gmap Z bool)) (v : Z),
    defect_history log defect_log row = Ok h
    ∧ length h = length (history_rows log row)
    ∧ last_encountered h d = Ok (Some v)
    ∧ -1 ≤ v ≤ Z.of_nat (length h) - 2.
Proof.
  intros Hrow Hwf Hcells Hc Hpos _.
  assert (Hsub : ∀ r, r ∈ history_rows log row → r ∈ log).
  { intros r Hr. by apply history_rows_elem in Hr as [? _]. }
  destruct (defect_history_total log defect_log row) as (h & Hh & Hlen & _).
  { intros r Hr. destruct (Hwf r (Hsub r Hr)) as (cs & -> & _). by eexists. }
  assert (Hall : ∀ r, r ∈ history_rows log row →
                      is_Some (cell_flag defect_log d r)).
  { intros r Hr. destruct (Hwf r (Hsub r Hr)) as (cs & Hcs & [x Hx]).
    unfold cell_flag. rewrite Hcs. cbn. rewrite Hx. by eexists. }
  pose proof (loop_value defect_log d log row Hall) as Hval.
  rewrite Hh in Hval. cbn [bind] in Hval.
  destruct (last_encountered_col_some
              (flag_of defect_log d <$> history_rows log row)) as (v & Hv & Hb).
  { apply list_elem_of_fmap. exists row. split.
    - unfold flag_of, cell_flag. rewrite Hcells. cbn. rewrite Hc. cbn.
      destruct (Z.eqb_spec c 0); [lia|done].
    - by apply history_rows_target. }
  rewrite length_fmap, <- Hlen in Hb.
  exists h, v. split; [done|]. split; [done|]. split; [|lia].
  by rewrite Hval.
Qed.

Lemma last_encountered_of_target_witness :
  ∃ (h : list (gmap Z bool)) (v : Z),
    defect_history (srt:=insertion_sorter)
      [Submission 10 1 3 500; Submission 11 1 4 600]
      {[ 10 := {[ 7 := 0 ]}; 11 := {[ 7 := 2 ]} ]} (Submission 11 1 4 600)
    = Ok h
    ∧ length h
      = length (history_rows (srt:=insertion_sorter)
                  [Submission 10 1 3 500; Submission 11 1 4 600]
                  (Submission 11 1 4 600))
    ∧ last_encountered h 7 = Ok (Some v)
    ∧ -1 ≤ v ≤ Z.of_nat (length h) - 2.
Proof.
  apply (last_encountered_of_target (srt:=insertion_sorter)
           [Submission 10 1 3 500; Submission 11 1 4 600]
           {[ 10 := {[ 7 := 0 ]}; 11 := {[ 7 := 2 ]} ]}
           (Submission 11 1 4 600) 7 {[ 7 := 2 ]} 2).
  - right. left.
  - intros r Hr.
    apply elem_of_cons in Hr as [->|Hr]; [by eexists; split; [|eexists]|].
    apply list_elem_of_singleton in Hr as ->.
    by eexists; split; [|eexists].
  - reflexivity.
  - reflexivity.
  - lia.
  - reflexivity.
Defined.

(** ** Sessions and their grid *)

Section Sessions.

Import Series.

Lemma length_cumsum_from (s : list bool) :
  ∀ acc, length (cumsum_from acc s) = length s.
Proof. induction s as [|b s IH]; intros acc; cbn; [done|]. by rewrite IH. Qed.

Lemma cumsum_from_range (s : list bool) :
  ∀ acc a, a ∈ cumsum_from acc s → acc ≤ a ≤ acc + count true s.
Proof.
  induction s as [|b s IH]; intros acc a Ha; [by apply elem_of_nil in Ha|].
  cbn [cumsum_from] in Ha. rewrite count_cons.
  pose proof (count_le_length true s) as Hc.
  apply elem_of_cons in Ha as [->|Ha].
  - destruct b; case_decide; try done; lia.
  - apply IH in Ha. destruct b; case_decide; try done; lia.
Qed.

Lemma cumsum_from_all (s : list bool) :
  ∀ acc k, acc < k ≤ acc + count true s → k ∈ cumsum_from acc s.
Proof.
  induction s as [|b s IH]; intros acc k Hk.
  { change (count true []) with 0 in Hk. lia. }
  cbn [cumsum_from]. rewrite count_cons in Hk.
  destruct b.
  - rewrite decide_True in Hk by done.
    destruct (decide (k = acc + 1)) as [->|Hne]; [by left|].
    right. apply IH. lia.
  - rewrite decide_False in Hk by done. right.
    replace (acc + 0) with acc by lia. apply IH. lia.
Qed.

Lemma last_cumsum_from (s : list bool) :
  ∀ acc, s ≠ [] → last (cumsum_from acc s) = Some (acc + count true s).
Proof.
  induction s as [|b s IH]; intros acc Hs; [done|].
  rewrite count_cons. destruct s as [|b' s].
  - cbn. change (count true []) with 0.
    destruct b; case_decide; try done; f_equal; lia.
  - change (last (cumsum_from acc (b :: b' :: s)))
      with (last (cumsum_from (acc + (if b then 1 else 0)) (b' :: s))).
    rewrite IH by done. destruct b; case_decide; try done; f_equal; lia.
Qed.

Lemma cumsum_from_step (s : list bool) :
  ∀ acc i a b (g : bool),
    (acc :: cumsum_from acc s) !! i = Some a →
    (acc :: cumsum_from acc s) !! S i = Some b →
    s !! i = Some g →
    b = a + (if g then 1 else 0).
Proof.
  induction s as [|g0 s IH]; intros acc i a b g Ha Hb Hg; [done|].
  destruct i as [|i].
  - cbn [lookup list_lookup cumsum_from] in Ha, Hb, Hg.
    injection Ha as <-. injection Hb as <-. injection Hg as <-. done.
  - cbn [lookup list_lookup cumsum_from] in Ha, Hb, Hg |- *.
    by eapply (IH (acc + (if g0 then 1 else 0)) i).
Qed.

Lemma long_gaps_from_inr (times : list Z) :
  ∀ prev gaps, long_gaps_from prev times = inr gaps →
    length gaps = length times
    ∧ ∀ i t t', (prev :: times) !! i = Some t →
                (prev :: times) !! S i = Some t' →
                in_int64 (t' - t)
                ∧ gaps !! i = Some (bool_decide (hour < t' - t)).
Proof.
  induction times as [|t0 ts IH]; intros prev gaps H.
  { injection H as <-. split; [done|]. intros [|i] t t' Ht Ht'; done. }
  cbn [long_gaps_from] in H. case_bool_decide as Hr; [|done].
  destruct (long_gaps_from t0 ts) as [e|gs] eqn:E; [done|].
  injection H as <-. destruct (IH _ _ E) as [Hlen Hlk].
  split; [cbn; by rewrite Hlen|].
  intros [|i] t t' Ht Ht'.
  - cbn in Ht, Ht'. injection Ht as <-. injection Ht' as <-. done.
  - cbn [lookup list_lookup] in Ht, Ht' |- *. by apply Hlk.
Qed.

Lemma long_gaps_from_inl (times : list Z) :
  ∀ prev e, long_gaps_from prev times = inl e →
    e = OverflowError
    ∧ ∃ i t t', (prev :: times) !! i = Some t
                ∧ (prev :: times) !! S i = Some t'
                ∧ ¬ in_int64 (t' - t).
Proof.
  induction times as [|t0 ts IH]; intros prev e H; [done|].
  cbn [long_gaps_from] in H. case_bool_decide as Hr.
  - destruct (long_gaps_from t0 ts) as [e'|gs] eqn:E; [|done].
    injection H as <-. destruct (IH _ _ E) as (-> & i & t & t' & ? & ? & ?).
    split; [done|]. by exists (S i), t, t'.
  - injection H as <-. split; [done|]. by exists 0%nat, prev, t0.
Qed.

End Sessions.

(** X15. The session cell on the times of a student's history: it raises
    ValueError exactly on the empty history, and OverflowError exactly when
    two consecutive times differ by more than an int64 holds.  Otherwise it
    gives one id for each submission; the first is 0; from one submission
    to the next the id stays, or grows by one when more than an hour lies
    between them; the ids are exactly the integers from 0 to the last id,
    so the last id plus one is the number of sessions. *)
Theorem session_ids_consecutive (times : list Z) :
  (session_ids times = inl ValueError ↔ times = [])
  ∧ (session_ids times = inl OverflowError
     ↔ ∃ i t t', times !! i = Some t ∧ times !! S i = Some t'
                 ∧ ¬ in_int64 (t' - t))
  ∧ ∀ ids, session_ids times = inr ids →
      length ids = length times
      ∧ head ids = Some 0
      ∧ (∃ n, last ids = Some n ∧ ∀ k, k ∈ ids ↔ 0 ≤ k ≤ n)
      ∧ ∀ i t t' a b,
          times !! i = Some t → times !! S i = Some t' →
          ids !! i = Some a → ids !! S i = Some b →
          b = a + (if bool_decide (hour < t' - t) then 1 else 0).
Proof.
  destruct times as [|t0 ts].
  { split_and!; [done| |done].
    split; [done|]. by intros ([|i] & ? & ? & ? & _). }
  cbn [session_ids].
  destruct (long_gaps_from t0 ts) as [e|gaps] eqn:E.
  - destruct (long_gaps_from_inl _ _ _ E) as (-> & Hpair).
    split_and!; [done| |done]. by split.
  - destruct (long_gaps_from_inr _ _ _ E) as [Hlen Hlk].
    split_and!; [done| |].
    + split; [done|]. intros (i & t & t' & Ht & Ht' & Hout).
      by destruct (Hlk i t t' Ht Ht') as [? _].
    + intros ids [= <-]. unfold Series.cumsum.
      change (Series.cumsum_from 0 (false :: gaps))
        with (0 :: Series.cumsum_from 0 gaps).
      split_and!.
      * cbn. by rewrite length_cumsum_from, Hlen.
      * done.
      * exists (0 + Series.count true gaps). split.
        -- destruct gaps as [|g gs]; [done|].
           change (last (0 :: Series.cumsum_from 0 (g :: gs)))
             with (last (Series.cumsum_from 0 (g :: gs))).
           by apply last_cumsum_from.
        -- intros k. rewrite elem_of_cons. split.
           ++ pose proof (count_le_length true gaps).
              intros [->|Hk%cumsum_from_range]; lia.
           ++ intros Hk. destruct (decide (k = 0)) as [->|Hne]; [by left|].
              right. apply cumsum_from_all. lia.
      * intros i t t' a b Ht Ht' Ha Hb.
        destruct (Hlk i t t' Ht Ht') as [_ Hg].
        by eapply cumsum_from_step.
Qed.

Lemma session_ids_consecutive_witness :
  length (Series.cumsum [false; false; true; false; true])
  = length [0; 60 * 10 ^ 9; 2 * hour; 2 * hour + 1; 4 * hour].
Proof.
  apply (session_ids_consecutive
           [0; 60 * 10 ^ 9; 2 * hour; 2 * hour + 1; 4 * hour]).
  by vm_compute.
Defined.

(** X16. The grid of the session figure holds every session: with [n >= 1]
    sessions there is at least one column and one row, [rows * cols >= n],
    each session id below [n] gets a cell inside the grid, and two sessions
    never get the same cell. *)
Theorem grid_cell_in_bounds (n s s' : Z) :
  1 ≤ n → 0 ≤ s < n → 0 ≤ s' < n →
  1 ≤ grid_cols n
  ∧ 1 ≤ grid_rows n
  ∧ n ≤ grid_rows n * grid_cols n
  ∧ 1 ≤ (grid_cell n s).1 ≤ grid_rows n
  ∧ 1 ≤ (grid_cell n s).2 ≤ grid_cols n
  ∧ (grid_cell n s = grid_cell n s' → s = s').
Proof.
  intros Hn Hs Hs'. unfold grid_cell, grid_rows, grid_cols. cbn [fst snd].
  pose proof (Z.sqrt_spec n ltac:(lia)) as Hsq.
  assert (Hc : 1 ≤ Z.sqrt n).
  { pose proof (Z.sqrt_nonneg n).
    assert (Z.sqrt n ≠ 0) by (intros E; rewrite E in Hsq; cbn in Hsq; lia). lia. }
  set (c := Z.sqrt n) in *.
  pose proof (Z.div_mod (- n) c ltac:(lia)) as Hdm.
  pose proof (Z.mod_pos_bound (- n) c ltac:(lia)) as Hmod.
  set (q := (- n) `div` c) in *.
  assert (Hr : 1 ≤ - q) by nia.
  assert (Hcover : n ≤ - q * c) by nia.
  split_and!; try done; try lia.
  - pose proof (Z.mod_pos_bound s (- q) ltac:(lia)). lia.
  - pose proof (Z.mod_pos_bound s (- q) ltac:(lia)). lia.
  - pose proof (Z.div_pos s (- q) ltac:(lia) ltac:(lia)). lia.
  - assert (s `div` (- q) < c); [|lia].
    apply Z.div_lt_upper_bound; nia.
  - intros [= Hm Hd].
    rewrite (Z.div_mod s (- q)), (Z.div_mod s' (- q)) by lia.
    assert (s `mod` (- q) = s' `mod` (- q)) by lia.
    assert (s `div` (- q) = s' `div` (- q)) by lia.
    congruence.
Qed.

Lemma grid_cell_in_bounds_witness :
  1 ≤ (grid_cell 7 6).2 ≤ grid_cols 7.
Proof.
  apply (grid_cell_in_bounds 7 6 6); lia.
Defined.


(** ** One answer per student and item *)

Section OnePerSession.

Let group (log : list submission) (k : Z * Z) : option submission :=
  last (filter (λ r, session_key r = k) log).

Lemma group_key (log : list submission) (k : Z * Z) (r : submission) :
  group log k = Some r → session_key r = k ∧ r ∈ log.
Proof.
  intros H. apply last_Some_elem_of, list_elem_of_filter in H. done.
Qed.

Lemma NoDup_omap_group (log : list submission) (ks : list (Z * Z)) :
  NoDup ks → NoDup (session_key <$> omap (group log) ks).
Proof.
  induction 1 as [|k ks Hk Hks IH]; [constructor|].
  cbn [omap list_omap]. destruct (group log k) as [r|] eqn:E; [|done].
  cbn [fmap list_fmap]. constructor; [|done].
  apply group_key in E as [<- _].
  intros (r' & Hkey & Hr')%list_elem_of_fmap.
  apply list_elem_of_omap in Hr' as (k' & Hk' & Hg).
  apply group_key in Hg as [<- _]. by rewrite Hkey in Hk.
Qed.

Lemma last_per_session_elem (log : list submission) (r : submission) :
  r ∈ last_per_session log ↔ group log (session_key r) = Some r.
Proof.
  unfold last_per_session. fold (group log). rewrite list_elem_of_omap. split.
  - intros (k & _ & Hg). by destruct (group_key _ _ _ Hg) as [<- _].
  - intros Hg. exists (session_key r). split; [|done].
    rewrite merge_sort_Permutation, elem_of_remove_dups.
    apply list_elem_of_fmap_2. by destruct (group_key _ _ _ Hg).
Qed.

Lemma group_nonempty (log : list submission) (r : submission) :
  r ∈ log → ∃ r', group log (session_key r) = Some r'.
Proof.
  intros Hr. unfold group.
  destruct (last (filter (λ r', session_key r' = session_key r) log))
    as [r'|] eqn:E; [by eauto|].
  apply last_None in E.
  assert (r ∈ filter (λ r', session_key r' = session_key r) log) as Hin
    by (by apply list_elem_of_filter).
  rewrite E in Hin. by apply elem_of_nil in Hin.
Qed.

End OnePerSession.

(** X17. After the log is loaded in sample_collection it holds at most one
    submission for each student and item; a submission is in it exactly
    when it is the last one logged for its student and item; every student
    and item that had a submission still has one; and the log is in time
    order. *)
Theorem load_log_one_per_session {srt : Sorter} (log : list submission) :
  NoDup (session_key <$> load_log log)
  ∧ (∀ r, r ∈ load_log log
          ↔ last (filter (λ r', session_key r' = session_key r) log) = Some r)
  ∧ (∀ r, r ∈ log →
          ∃ r', r' ∈ load_log log ∧ session_key r' = session_key r)
  ∧ StronglySorted time_le (load_log log).
Proof.
  assert (Helem : ∀ r, r ∈ load_log log
    ↔ last (filter (λ r', session_key r' = session_key r) log) = Some r).
  { intros r. unfold load_log. rewrite sort_values_perm.
    apply last_per_session_elem. }
  split_and!.
  - unfold load_log. rewrite sort_values_perm. unfold last_per_session.
    apply NoDup_omap_group.
    rewrite merge_sort_Permutation. apply NoDup_remove_dups.
  - done.
  - intros r Hr. destruct (group_nonempty log r Hr) as [r' Hr'].
    pose proof (group_key _ _ _ Hr') as [Hkey _].
    exists r'. split; [|done]. apply Helem. by rewrite Hkey.
  - apply sort_values_sorted.
Qed.

Lemma NoDup_fmap_inj_on {A B} (f : A → B) (l : list A) (x y : A) :
  NoDup (f <$> l) → x ∈ l → y ∈ l → f x = f y → x = y.
Proof.
  induction l as [|a l IH]; intros Hnd Hx Hy Hf; [by apply elem_of_nil in Hx|].
  cbn [fmap list_fmap] in Hnd. apply NoDup_cons in Hnd as [Ha Hnd].
  apply elem_of_cons in Hx as [->|Hx]; apply elem_of_cons in Hy as [->|Hy].
  - done.
  - exfalso. apply Ha. rewrite Hf. by apply list_elem_of_fmap_2.
  - exfalso. apply Ha. rewrite <- Hf. by apply list_elem_of_fmap_2.
  - by apply IH.
Qed.

Lemma NoDup_fmap_filter {A B} (f : A → B) (P : A → Prop)
    `{∀ x, Decision (P x)} (l : list A) :
  NoDup (f <$> l) → NoDup (f <$> filter P l).
Proof.
  induction l as [|a l IH]; [done|].
  cbn [fmap list_fmap]. intros [Ha Hnd]%NoDup_cons.
  rewrite filter_cons. case_decide; [|by apply IH].
  cbn [fmap list_fmap]. apply NoDup_cons. split; [|by apply IH].
  intros (x & Hfx & Hx)%list_elem_of_fmap.
  apply list_elem_of_filter in Hx as [_ Hx].
  apply Ha. rewrite Hfx. by apply list_elem_of_fmap_2.
Qed.

(** X18. On the log as sample_collection loads it (one answer per student
    and item, sorted by time, restricted to the kept items), no item occurs
    twice in the history of a target, and the history holds the rows of the
    student up to the target's time. *)
Theorem history_rows_load_log {srt : Sorter} {V} (items : gmap Z V)
    (log : list submission) (row : submission) :
  let loaded := keep_log (keep_items items (load_log log)) (load_log log) in
  NoDup (item <$> history_rows loaded row)
  ∧ history_rows loaded row ≡ₚ filter (in_history row) loaded.
Proof.
  intros loaded. split; [|apply sort_values_perm].
  assert (Hloaded : NoDup (session_key <$> loaded)).
  { apply NoDup_fmap_filter. unfold load_log.
    rewrite sort_values_perm. unfold last_per_session.
    apply NoDup_omap_group.
    rewrite merge_sort_Permutation. apply NoDup_remove_dups. }
  unfold history_rows. rewrite sort_values_perm.
  assert (Hkeys : NoDup (session_key <$> filter (in_history row) loaded))
    by (by apply NoDup_fmap_filter).
  apply NoDup_fmap_2_strong; [|by eapply NoDup_fmap_1].
  intros r1 r2 Hr1 Hr2 Hitem.
  eapply (NoDup_fmap_inj_on session_key); [exact Hkeys|done|done|].
  apply list_elem_of_filter in Hr1 as [[Hu1 _] _].
  apply list_elem_of_filter in Hr2 as [[Hu2 _] _].
  unfold session_key. congruence.
Qed.

(** ** All targets of a student in one pass *)

Section OnePass.

Lemma last_encountered_col_take (flag : list bool) (m : nat) :
  (m < length flag)%nat →
  last_encountered_col (take (S m) flag)
  = of_option IndexError (last_encountered_series flag !! m).
Proof.
  intros Hm.
  change (last_encountered_col (take (S m) flag))
    with (of_option IndexError
            (last (last_encountered_series (take (S m) flag)))).
  rewrite <- take_last_encountered_series, last_take_S; [done|].
  by rewrite length_last_encountered_series.
Qed.

Lemma last_encountered_col_proper (flag1 flag2 : list bool) :
  flag1 ≡ₚ flag2 → last_encountered_col flag1 = last_encountered_col flag2.
Proof.
  intros H. rewrite !last_encountered_col_closed.
  destruct flag1 as [|b1 s1], flag2 as [|b2 s2]; try done.
  - by apply Permutation_nil_cons in H.
  - symmetry in H. by apply Permutation_nil_cons in H.
  - rewrite (Permutation_length H), (count_perm true _ _ H).
    apply (f_equal Ok).
    destruct (decide (true ∈ b1 :: s1)) as [H1|H1];
      destruct (decide (true ∈ b2 :: s2)) as [H2|H2]; try done.
    + by rewrite H in H1.
    + by rewrite <- H in H2.
Qed.

End OnePass.

(** X19. The values of all targets of a student come from one series: if
    the history frame of a later target is built and has the defect's
    column, the value for an earlier target of the same student is the cell
    of that column's series at the earlier target's last position. *)
Theorem last_encountered_one_pass {srt : Sorter} (log : list submission)
    (defect_log : gmap Z (gmap Z Z)) (r1 r2 : submission) (d : Z)
    (h2 : list (gmap Z bool)) (flag2 : list bool) :
  r1 ∈ log →
  user r1 = user r2 →
  time r1 ≤ time r2 →
  defect_history log defect_log r2 = Ok h2 →
  Frame.column d h2 = Ok flag2 →
  (let* h1 := defect_history log defect_log r1 in last_encountered h1 d)
  = of_option IndexError
      (last_encountered_series flag2
         !! pred (length (history_rows log r1))).
Proof.
  intros Hr1 Hu Ht Hh2 Hflag2.
  pose proof (loop_flags defect_log d log r2 h2 flag2 Hh2 Hflag2) as HF2.
  pose proof (cell_flag_fmap _ _ _ _ HF2) as Eflag2.
  destruct (history_rows_take log r1 r2 Hu Ht) as (Hperm & _ & Hlen).
  set (n := length (history_rows log r1)) in *.
  assert (Hall : ∀ r, r ∈ history_rows log r1 →
                      is_Some (cell_flag defect_log d r)).
  { intros r Hr. rewrite Hperm in Hr.
    apply elem_of_take in Hr as (i & Hi & _).
    eapply Forall2_lookup_l in HF2 as (b & _ & Hb); [|exact Hi]. by eexists. }
  rewrite (loop_value defect_log d log r1 Hall).
  assert (Hn : (0 < n)%nat).
  { pose proof (history_rows_target log r1 Hr1) as Hin.
    subst n. destruct (history_rows log r1); [by apply elem_of_nil in Hin|].
    cbn. lia. }
  assert (Hlen2 : length flag2 = length (history_rows log r2))
    by (by rewrite Eflag2, length_fmap).
  rewrite <- (last_encountered_col_take flag2 (pred n)) by lia.
  replace (S (pred n)) with n by lia.
  apply last_encountered_col_proper.
  by rewrite Hperm, Eflag2, fmap_take.
Qed.

Lemma last_encountered_one_pass_witness :
  (let* h1 := defect_history (srt:=insertion_sorter)
                [Submission 10 1 3 500; Submission 11 1 4 600]
                {[ 10 := {[ 7 := 1 ]}; 11 := {[ 7 := 2 ]} ]}
                (Submission 10 1 3 500) in
   last_encountered h1 7)
  = of_option IndexError
      (last_encountered_series [true; true]
         !! pred (length (history_rows (srt:=insertion_sorter)
                            [Submission 10 1 3 500; Submission 11 1 4 600]
                            (Submission 10 1 3 500)))).
Proof.
  apply (last_encountered_one_pass (srt:=insertion_sorter)
           [Submission 10 1 3 500; Submission 11 1 4 600]
           {[ 10 := {[ 7 := 1 ]}; 11 := {[ 7 := 2 ]} ]}
           (Submission 10 1 3 500) (Submission 11 1 4 600) 7
           [ {[ 7 := true ]}; {[ 7 := true ]} ] [true; true]).
  - left.
  - reflexivity.
  - cbn. lia.
  - by vm_compute.
  - by vm_compute.
Defined.
